(** * mkdefconfig.py: the [Defconfig] configuration store

    A shallow embedding of [sdk/tools/mkdefconfig.py]: the two compiled
    regular expressions [is_not_set] and [is_config], the class
    [Defconfig] with its methods [load], [save] and [save_diff], and the
    properties of the on-disk format that follow from them.

    Python [str] is modelled by [string] (a sequence of bytes; the
    order on strings is the lexicographic order on character codes, which
    is the order Python's [sorted] uses on [str]).  The dictionary
    [self.opts] is a [gmap string string]; every place where the program
    iterates over [opts.items()] passes the result through [sorted], and
    the lemmas [config_lines_perm] and [diff_out_perm] show that the
    enumeration order of the items has no influence on what is written.

    The filesystem is a finite map from paths to nodes, a node being a
    regular text file or a directory.  Text files are read and written
    as on POSIX: writing leaves the line feed alone, reading translates
    carriage return and carriage return + line feed to a line feed
    (Python's universal newlines).  A file whose bytes the codec of
    [open] does not decode is a node of its own: reading it raises
    [UnicodeDecodeError], after the lines decoded so far have been
    delivered.  Permissions and missing parent directories are outside
    the model, as is the diagnostic [logging.debug] call of [load],
    which changes neither the mapping nor the result. *)

From Stdlib Require Import String Ascii.
From stdpp Require Import base strings list gmap sorting.

(** ** Python string primitives *)

Definition LF : ascii := "010"%char.
Definition CR : ascii := "013"%char.
Definition EQUALS : ascii := "="%char.

(** The one-character string ['\n']. *)
Definition nl : string := String LF "".

(** The double quote character, as a string. *)
Definition dquote : string := String "034"%char "".

(** [occurs c s]: the character [c] is in [s] (Python [c in s]). *)
Fixpoint occurs (c : ascii) (s : string) : bool :=
  match s with
  | "" => false
  | String a s' => if decide (a = c) then true else occurs c s'
  end.

(** [strip_prefix p s] is [Some rest] when [s = p + rest], the test the
    regex engine makes for a literal at the current position. *)
Fixpoint strip_prefix (p s : string) : option string :=
  match p with
  | "" => Some s
  | String a p' =>
      match s with
      | "" => None
      | String b s' => if decide (a = b) then strip_prefix p' s' else None
      end
  end.

(** [s.replace(old, '', 1)]: the leftmost occurrence of [old] is removed,
    the string is unchanged when there is none. *)
Fixpoint replace_first (old s : string) : string :=
  match strip_prefix old s with
  | Some rest => rest
  | None =>
      match s with
      | "" => ""
      | String c s' => String c (replace_first old s')
      end
  end.

(** [old in s] *)
Fixpoint contains (old s : string) : bool :=
  match strip_prefix old s with
  | Some _ => true
  | None =>
      match s with
      | "" => false
      | String _ s' => contains old s'
      end
  end.

(** [sep.join(l)] *)
Fixpoint join (sep : string) (l : list string) : string :=
  match l with
  | [] => ""
  | x :: l' =>
      match l' with
      | [] => x
      | _ :: _ => x +:+ sep +:+ join sep l'
      end
  end.

(** [sorted] on a list of [str]. *)
Definition sorted (l : list string) : list string := merge_sort String.le l.

(** The order of Python on pairs of strings: first components first. *)
Definition item_le (x y : string * string) : Prop :=
  if decide (x.1 = y.1) then String.le x.2 y.2 else String.le x.1 y.1.

#[global] Instance item_le_dec : RelDecision item_le.
Proof. intros x y. unfold item_le. destruct (decide (x.1 = y.1)); apply _. Defined.

(** [sorted] on a list of [(sym, val)] tuples. *)
Definition sorted_items (l : list (string * string)) : list (string * string) :=
  merge_sort item_le l.

(** ** The regular expressions *)

(** A trailing [.*]: every character up to the first line feed. *)
Fixpoint dot_star (s : string) : string :=
  match s with
  | "" => ""
  | String c s' => if decide (c = LF) then "" else String c (dot_star s')
  end.

(** [.*] followed by the literal [lit], as the backtracking matcher runs
    it: the greedy [.*] first takes one more character (any but a line
    feed), and the literal is tried at the current position only when
    the longer attempt has failed.  The result is the text captured by
    [.*] and the text that follows the literal. *)
Fixpoint dot_star_then (lit s : string) : option (string * string) :=
  let here := (λ rest, ("", rest)) <$> strip_prefix lit s in
  match s with
  | "" => here
  | String c s' =>
      if decide (c = LF) then here
      else
        match dot_star_then lit s' with
        | Some (g, rest) => Some (String c g, rest)
        | None => here
        end
  end.

(** The pattern [is_not_set]: at the start of the line the literal
    ['# '], the group [symbol] matching [.*], and the literal
    [' is not set']; nothing anchors the end.  [is_not_set_match line]
    is [m.group('symbol')] of [m = is_not_set.match(line)], [None] when
    there is no match. *)
Definition is_not_set_match (line : string) : option string :=
  match strip_prefix "# " line with
  | Some rest => fst <$> dot_star_then " is not set" rest
  | None => None
  end.

(** The pattern [is_config]: the group [symbol] matching [.*], the
    literal ['='], and the group [value] matching [.*].
    [is_config_match line] is the pair of [m.group('symbol')] and
    [m.group('value')] of [m = is_config.match(line)]. *)
Definition is_config_match (line : string) : option (string * string) :=
  match dot_star_then "=" line with
  | Some (symbol, rest) => Some (symbol, dot_star rest)
  | None => None
  end.

(** ** Text files *)

(** Universal newlines on reading: ['\r\n'] and a lone ['\r'] become
    ['\n']. *)
Fixpoint universal_newlines (s : string) : string :=
  match s with
  | "" => ""
  | String c s' =>
      if decide (c = CR) then
        match s' with
        | String c' _ =>
            if decide (c' = LF) then universal_newlines s'
            else String LF (universal_newlines s')
        | "" => nl
        end
      else String c (universal_newlines s')
  end.

(** The lines of a text, each with its terminating line feed (the last
    one has none when the text does not end in a line feed). *)
Fixpoint iter_lines (s : string) : list string :=
  match s with
  | "" => []
  | String c s' =>
      if decide (c = LF) then nl :: iter_lines s'
      else
        match iter_lines s' with
        | [] => [String c ""]
        | l :: ls => String c l :: ls
        end
  end.

(** [for line in f] on a file opened with [open(path, 'r')]. *)
Definition file_lines (content : string) : list string :=
  iter_lines (universal_newlines content).

(** [print(s, file=f)] appends [s] and a line feed to what was written. *)
Definition print_to (written s : string) : string := written +:+ s +:+ nl.

(** The text that holds the lines [out], each followed by a line feed; a
    single line feed when there is no line. *)
Abbreviation each_on_a_line out :=
  (match out%list with
   | [] => nl
   | _ :: _ => foldr (λ l rest, l +:+ nl +:+ rest) "" out
   end).

(** A regular file that decodes to the text [content]; a regular file
    whose bytes stop decoding, [readable] being the text of the lines the
    reader delivers before the error; a directory. *)
Inductive node :=
  | File (content : string)
  | Garbled (readable : string)
  | Dir.

Inductive exn := TypeError | IsADirectoryError | UnicodeDecodeError.

(** What a method call does: it returns [None] or an integer, or it
    raises. *)
Inductive result :=
  | Returns (v : option Z)
  | Raises (e : exn).

(** ** The class [Defconfig] *)

Definition DEFCONFIG_HEADER : string :=
  "#" +:+ nl +:+
  "# This file is autogenerated: PLEASE DO NOT EDIT IT." +:+ nl +:+
  "#" +:+ nl +:+
  "# You can use " +:+ dquote +:+ "make menuconfig" +:+ dquote +:+
    " to make any modifications to the installed .config file." +:+ nl +:+
  "# You can then do " +:+ dquote +:+ "make savedefconfig" +:+ dquote +:+
    " to generate a new defconfig file that includes your" +:+ nl +:+
  "# modifications." +:+ nl +:+
  "#".

Record Defconfig := mkDefconfig {
  path : option string;
  opts : gmap string string
}.

(** [Defconfig(path)] *)
Definition init (p : option string) : Defconfig := mkDefconfig p ∅.

(** [opts.items()], in some order. *)
Definition items (o : gmap string string) : list (string * string) :=
  map_to_list o.

(** [path = self.path if path == None else path] *)
Definition resolve (self : Defconfig) (p : option string) : option string :=
  match p with
  | None => path self
  | Some _ => p
  end.

(** The body of the loop of [load]. *)
Definition load_line (o : gmap string string) (line : string)
  : gmap string string :=
  match is_not_set_match line with
  | Some symbol => <[replace_first "CONFIG_" symbol := "n"]> o
  | None =>
      match is_config_match line with
      | Some (symbol, value) => <[replace_first "CONFIG_" symbol := value]> o
      | None => o
      end
  end.

Definition load_lines (o : gmap string string) (lines : list string)
  : gmap string string :=
  foldl load_line o lines.

Definition load (fs : gmap string node) (self : Defconfig) (p : option string)
  : result * Defconfig :=
  match resolve self p with
  | None => (Returns (Some (-1)%Z), self)
  | Some p' =>
      match fs !! p' with
      | None => (Returns (Some (-1)%Z), self)
      | Some Dir => (Raises IsADirectoryError, self)
      | Some (File content) =>
          (Returns None,
           mkDefconfig (path self) (load_lines (opts self) (file_lines content)))
      | Some (Garbled readable) =>
          (Raises UnicodeDecodeError,
           mkDefconfig (path self) (load_lines (opts self) (file_lines readable)))
      end
  end.

(** One entry of a defconfig file. *)
Definition config_entry (sym val : string) : string :=
  if decide (val = "n") then "# CONFIG_" +:+ sym +:+ " is not set"
  else "CONFIG_" +:+ sym +:+ "=" +:+ val.

(** The loop of [save] over an enumeration [its] of [self.opts.items()]. *)
Definition config_lines (its : list (string * string)) : list string :=
  foldl (λ config '(sym, val), config ++ [config_entry sym val]) []
        (sorted_items its).

(** What [save] writes, with its two calls of [print]. *)
Definition save_text_of (its : list (string * string)) : string :=
  print_to (print_to "" DEFCONFIG_HEADER) (join nl (sorted (config_lines its))).

Definition save_text (o : gmap string string) : string := save_text_of (items o).

(** [open(path, 'w')] followed by writing [text]. *)
Definition write_file (fs : gmap string node) (p : option string) (text : string)
  : result * gmap string node :=
  match p with
  | None => (Raises TypeError, fs)
  | Some p' =>
      match fs !! p' with
      | Some Dir => (Raises IsADirectoryError, fs)
      | _ => (Returns None, <[p' := File text]> fs)
      end
  end.

Definition save (fs : gmap string node) (self : Defconfig) (p : option string)
  : result * gmap string node :=
  write_file fs (resolve self p) (save_text (opts self)).

(** The first loop of [save_diff], over the items of [target]. *)
Definition diff_minus (self_opts : gmap string string)
    (target_items : list (string * string)) : list string :=
  foldl (λ minus '(sym, val),
           if decide (self_opts !! sym = None)
           then minus ++ ["-" +:+ sym +:+ "=" +:+ val]
           else minus)
        [] target_items.

(** The second loop of [save_diff], over the items of [self]; the state
    is the pair of [plus] and [changes]. *)
Definition diff_step (target_opts : gmap string string)
    (st : list string * list string) (it : string * string)
  : list string * list string :=
  let '(plus, changes) := st in
  let '(sym, val) := it in
  let plus' :=
    if decide (target_opts !! sym = None)
    then plus ++ ["+" +:+ sym +:+ "=" +:+ val]
    else plus in
  let changes' :=
    match target_opts !! sym with
    | Some tval =>
        if decide (tval ≠ val)
        then changes ++ [" " +:+ sym +:+ "=" +:+ tval +:+ "->" +:+ val]
        else changes
    | None => changes
    end in
  (plus', changes').

Definition diff_plus_changes (target_opts : gmap string string)
    (self_items : list (string * string)) : list string * list string :=
  foldl (diff_step target_opts) ([], []) self_items.

(** [out] of [save_diff], for enumerations of the items of the two
    dictionaries. *)
Definition diff_out_of (self_opts target_opts : gmap string string)
    (self_items target_items : list (string * string)) : list string :=
  let minus := diff_minus self_opts target_items in
  let '(plus, changes) := diff_plus_changes target_opts self_items in
  sorted minus ++ sorted changes ++ sorted plus.

Definition diff_out (self_opts target_opts : gmap string string) : list string :=
  diff_out_of self_opts target_opts (items self_opts) (items target_opts).

Definition diff_text (self_opts target_opts : gmap string string) : string :=
  print_to "" (join nl (diff_out self_opts target_opts)).

Definition save_diff (fs : gmap string node) (self target : Defconfig)
    (p : option string) : result * gmap string node :=
  write_file fs (resolve self p) (diff_text (opts self) (opts target)).

(** [__repr__], over an enumeration [its] of [self.opts.items()]. *)
Definition repr_of (its : list (string * string)) : string :=
  join ","
    (foldl (λ r '(sym, val), r ++ ["(" +:+ sym +:+ " = " +:+ val +:+ ")"]) []
           (sorted_items its)).

Definition repr (self : Defconfig) : string := repr_of (items (opts self)).

(** ** The prompt [confirm] *)

(** What the terminal delivers to one call of [input]: a line, without
    its line feed, or the interrupt key.  The end of the list is the end
    of the input, at which [input] raises [EOFError]. *)
Inductive stdin_event :=
  | Answer (res : string)
  | Interrupt.

(** How a call of [confirm] ends: it returns a boolean, or [sys.exit]
    raises [SystemExit], or the [EOFError] of [input] goes through. *)
Inductive confirm_result :=
  | Answered (b : bool)
  | SystemExit (code : Z)
  | EOFError.

(** [confirm(msg)], reading [events] and writing after [stdout]: the loop
    runs once per call of [input], which first writes the prompt. *)
Fixpoint confirm (msg : string) (events : list stdin_event) (stdout : string)
  : confirm_result * string :=
  let stdout' := stdout +:+ (msg +:+ " (y/n)? ") in
  match events with
  | [] => (EOFError, stdout')
  | Interrupt :: _ => (SystemExit 0, print_to stdout' "")
  | Answer res :: events' =>
      if decide (res = "y") then (Answered true, stdout')
      else if decide (res = "n") then (Answered false, stdout')
      else confirm msg events' stdout'
  end.

(** ** Well-formed entries *)

(** A string without line break: what one line of a text file can hold. *)
Definition single_line (s : string) : Prop :=
  occurs LF s = false ∧ occurs CR s = false.

(** A mapping whose symbols and values fit on a line and whose values
    hold no ['=']: the mappings one line per entry can represent. *)
Definition line_safe (o : gmap string string) : Prop :=
  map_Forall (λ sym val,
    single_line sym ∧ single_line val ∧ occurs EQUALS val = false) o.

(** What the matcher computes.  [greedy_split lit s g rest]: [g] is the
    longest text without line feed such that [s] is [g], the literal,
    and [rest]. *)
Definition greedy_split (lit s g rest : string) : Prop :=
  s = g +:+ lit +:+ rest ∧ occurs LF g = false ∧
  ∀ g' rest', s = g' +:+ lit +:+ rest' → occurs LF g' = false →
              String.length g' ≤ String.length g.

(** ** Strings *)

Section strings.
Implicit Types (s t u : string) (a c : ascii).

Lemma str_app_cons a s t : String a s +:+ t = String a (s +:+ t).
Proof. reflexivity. Qed.

Lemma str_app_nil_l s : "" +:+ s = s.
Proof. reflexivity. Qed.

Lemma str_app_nil_r s : s +:+ "" = s.
Proof. induction s as [|a s IH]; [done|]. by rewrite str_app_cons, IH. Qed.

Lemma str_app_assoc s t u : (s +:+ t) +:+ u = s +:+ t +:+ u.
Proof. induction s as [|a s IH]; [done|]. by rewrite !str_app_cons, IH. Qed.

Lemma occurs_cons c a s :
  occurs c (String a s) = if decide (a = c) then true else occurs c s.
Proof. reflexivity. Qed.

Lemma occurs_app c s t : occurs c (s +:+ t) = occurs c s || occurs c t.
Proof.
  induction s as [|a s IH]; [done|].
  rewrite str_app_cons, !occurs_cons. by destruct (decide (a = c)).
Qed.

Lemma occurs_app_false c s t :
  occurs c (s +:+ t) = false ↔ occurs c s = false ∧ occurs c t = false.
Proof. rewrite occurs_app. apply orb_false_iff. Qed.

Lemma strip_prefix_Some p s r : strip_prefix p s = Some r ↔ s = p +:+ r.
Proof.
  revert s. induction p as [|a p IH]; intros s.
  - rewrite str_app_nil_l. simpl. split; congruence.
  - rewrite str_app_cons. destruct s as [|b s]; simpl; [split; congruence|].
    destruct (decide (a = b)) as [->|]; [|split; congruence].
    rewrite IH. split; congruence.
Qed.

Lemma strip_prefix_app p s : strip_prefix p (p +:+ s) = Some s.
Proof. by apply strip_prefix_Some. Qed.

Lemma replace_first_unfold old s :
  replace_first old s =
    match strip_prefix old s with
    | Some rest => rest
    | None =>
        match s with
        | "" => ""
        | String c s' => String c (replace_first old s')
        end
    end.
Proof. by destruct s. Qed.

Lemma replace_first_prefix old s : replace_first old (old +:+ s) = s.
Proof. by rewrite replace_first_unfold, strip_prefix_app. Qed.

Lemma app_inv_length s s' t t' :
  s +:+ t = s' +:+ t' → String.length s = String.length s' → s = s' ∧ t = t'.
Proof.
  revert s'. induction s as [|a s IH]; intros [|a' s'] Heq Hlen; try done.
  rewrite !str_app_cons in Heq. injection Heq as -> Heq. injection Hlen as Hlen.
  by destruct (IH s' Heq Hlen) as [-> ->].
Qed.

Lemma dot_star_cons c s :
  dot_star (String c s) = if decide (c = LF) then "" else String c (dot_star s).
Proof. reflexivity. Qed.

Lemma dot_star_app v rest :
  occurs LF v = false → dot_star (v +:+ String LF rest) = v.
Proof.
  induction v as [|a v IH]; intros Hv.
  - rewrite str_app_nil_l, dot_star_cons. by rewrite decide_True.
  - rewrite occurs_cons in Hv. rewrite str_app_cons, dot_star_cons.
    destruct (decide (a = LF)); [done|]. by rewrite IH.
Qed.

Lemma dot_star_id v : occurs LF v = false → dot_star v = v.
Proof.
  induction v as [|a v IH]; intros Hv; [done|].
  rewrite occurs_cons in Hv. rewrite dot_star_cons.
  destruct (decide (a = LF)); [done|]. by rewrite IH.
Qed.

Lemma dot_star_no_LF s : occurs LF (dot_star s) = false.
Proof.
  induction s as [|a s IH]; [done|]. rewrite dot_star_cons.
  destruct (decide (a = LF)); [done|]. rewrite occurs_cons. by rewrite decide_False.
Qed.

(** The text of a line and what follows it. *)
Lemma dot_star_split s :
  ∃ tail, s = dot_star s +:+ tail ∧ (tail = "" ∨ ∃ t, tail = String LF t).
Proof.
  induction s as [|a s (tail & Hs & Htail)]; [by exists ""; auto|].
  rewrite dot_star_cons. destruct (decide (a = LF)) as [->|].
  - exists (String LF s). eauto.
  - exists tail. rewrite str_app_cons, <-Hs. done.
Qed.
End strings.

(** ** The matcher *)

Section matcher.
Implicit Types (s t g rest lit : string).

Lemma dot_star_then_unfold lit s :
  dot_star_then lit s =
    let here := (λ rest, ("", rest)) <$> strip_prefix lit s in
    match s with
    | "" => here
    | String c s' =>
        if decide (c = LF) then here
        else
          match dot_star_then lit s' with
          | Some (g, rest) => Some (String c g, rest)
          | None => here
          end
    end.
Proof. by destruct s. Qed.

Lemma dot_star_then_sound lit s :
  match dot_star_then lit s with
  | Some (g, rest) => greedy_split lit s g rest
  | None => ∀ g' rest', s = g' +:+ lit +:+ rest' → occurs LF g' = true
  end.
Proof.
  assert (Hhere : ∀ s,
    (∀ g' rest', s = g' +:+ lit +:+ rest' → occurs LF g' = false → g' = "") →
    match (λ rest, ("", rest)) <$> strip_prefix lit s with
    | Some (g, rest) => greedy_split lit s g rest
    | None => ∀ g' rest', s = g' +:+ lit +:+ rest' → occurs LF g' = true
    end).
  { intros s0 Hs0. destruct (strip_prefix lit s0) as [r|] eqn:Hp; simpl.
    - apply strip_prefix_Some in Hp. repeat split; [done|].
      intros g' rest' Hg' HLF. by rewrite (Hs0 _ _ Hg' HLF).
    - intros g' rest' Hg'. apply not_false_iff_true. intros HLF.
      rewrite (Hs0 _ _ Hg' HLF), str_app_nil_l in Hg'.
      apply strip_prefix_Some in Hg'. congruence. }
  induction s as [|c s IH]; rewrite dot_star_then_unfold; cbv zeta.
  - apply Hhere. intros [|a g'] rest' Hg' _; [done|]. by rewrite str_app_cons in Hg'.
  - destruct (decide (c = LF)) as [->|Hc].
    + apply Hhere. intros [|a g'] rest' Hg' HLF; [done|].
      rewrite str_app_cons in Hg'. injection Hg' as <- _.
      by rewrite occurs_cons, decide_True in HLF.
    + destruct (dot_star_then lit s) as [[g rest]|].
      * destruct IH as (-> & HLF & Hmax). split; [by rewrite str_app_cons|].
        split; [by rewrite occurs_cons, decide_False|].
        intros [|a g'] rest' Hg' HLF'; simpl; [lia|].
        rewrite !str_app_cons in Hg'. injection Hg' as <- Hg'.
        rewrite occurs_cons, decide_False in HLF' by done.
        specialize (Hmax _ _ Hg' HLF'). lia.
      * apply Hhere. intros [|a g'] rest' Hg' HLF'; [done|].
        rewrite str_app_cons in Hg'. injection Hg' as <- Hg'.
        rewrite occurs_cons, decide_False in HLF' by done.
        specialize (IH _ _ Hg'). congruence.
Qed.

Lemma greedy_split_unique lit s g1 r1 g2 r2 :
  greedy_split lit s g1 r1 → greedy_split lit s g2 r2 → g1 = g2 ∧ r1 = r2.
Proof.
  intros (H1 & L1 & M1) (H2 & L2 & M2).
  pose proof (M1 _ _ H2 L2). pose proof (M2 _ _ H1 L1).
  rewrite H1 in H2. apply app_inv_length in H2 as [-> H2]; [|lia].
  split; [done|]. apply app_inv_length in H2 as [_ ?]; done.
Qed.

(** The matcher computes the greedy split, and fails only when there is
    none. *)
Lemma dot_star_then_spec lit s g rest :
  dot_star_then lit s = Some (g, rest) ↔ greedy_split lit s g rest.
Proof.
  pose proof (dot_star_then_sound lit s) as Hs.
  destruct (dot_star_then lit s) as [[g0 r0]|]; split.
  - by intros [= <- <-].
  - intros Hg. by destruct (greedy_split_unique _ _ _ _ _ _ Hs Hg) as [-> ->].
  - done.
  - intros (Hg & HLF & _). specialize (Hs _ _ Hg). congruence.
Qed.

Lemma dot_star_then_None lit s :
  dot_star_then lit s = None ↔
  ∀ g' rest', s = g' +:+ lit +:+ rest' → occurs LF g' = true.
Proof.
  pose proof (dot_star_then_sound lit s) as Hs.
  destruct (dot_star_then lit s) as [[g0 r0]|]; [|done].
  split; [done|]. intros Hn. destruct Hs as (Hg & HLF & _).
  specialize (Hn _ _ Hg). congruence.
Qed.

(** A prefix without line feed is taken by the greedy [.*]. *)
Lemma dot_star_then_app lit g t g' rest :
  occurs LF g = false →
  dot_star_then lit t = Some (g', rest) →
  dot_star_then lit (g +:+ t) = Some (g +:+ g', rest).
Proof.
  intros Hg Ht. induction g as [|a g IH]; [done|].
  rewrite occurs_cons in Hg. destruct (decide (a = LF)); [done|].
  rewrite !str_app_cons, dot_star_then_unfold. cbv zeta.
  rewrite decide_False by done. by rewrite IH.
Qed.
End matcher.

(** ** The two patterns *)

Section patterns.
Implicit Types (s g v line symbol value : string).

Lemma dot_star_then_equals_sound s :
  match dot_star_then "=" s with
  | Some (g, rest) =>
      dot_star s = g +:+ "=" +:+ dot_star rest ∧
      occurs EQUALS (dot_star rest) = false
  | None => occurs EQUALS (dot_star s) = false
  end.
Proof.
  induction s as [|c s IH]; [done|].
  rewrite dot_star_then_unfold, dot_star_cons. cbv zeta.
  destruct (decide (c = LF)) as [->|Hc]; [done|].
  destruct (dot_star_then "=" s) as [[g rest]|].
  - destruct IH as [-> ?]. by rewrite str_app_cons.
  - simpl. destruct (decide ("="%char = c)) as [<-|Hne]; simpl.
    + by rewrite str_app_nil_l.
    + rewrite decide_False; [done|]. by intros ->.
Qed.

(** A text is cut at its last ['='] in one way only. *)
Lemma last_equals_unique g v g' v' :
  g +:+ "=" +:+ v = g' +:+ "=" +:+ v' →
  occurs EQUALS v = false → occurs EQUALS v' = false →
  g = g' ∧ v = v'.
Proof.
  intros Heq Hv Hv'. revert g' Heq.
  induction g as [|a g IH]; intros [|a' g'] Heq.
  - cbv in Heq. by injection Heq as ->.
  - change (String "=" v = String a' (g' +:+ "=" +:+ v')) in Heq.
    injection Heq as <- ->.
    rewrite occurs_app, orb_false_iff in Hv. by destruct Hv as [_ Hv].
  - change (String a (g +:+ "=" +:+ v) = String "=" v') in Heq.
    injection Heq as -> <-.
    rewrite occurs_app, orb_false_iff in Hv'. by destruct Hv' as [_ Hv'].
  - rewrite !str_app_cons in Heq. injection Heq as -> Heq.
    by destruct (IH _ Heq) as [-> ->].
Qed.

(** [is_config] cuts the text of the line (the characters before its
    line feed) at its last ['=']. *)
Lemma is_config_match_spec line symbol value :
  is_config_match line = Some (symbol, value) ↔
  dot_star line = symbol +:+ "=" +:+ value ∧ occurs EQUALS value = false.
Proof.
  unfold is_config_match. pose proof (dot_star_then_equals_sound line) as Hs.
  destruct (dot_star_then "=" line) as [[g rest]|]; split.
  - by intros [= <- <-].
  - intros [Hd Hv]. destruct Hs as [Hs Hr]. rewrite Hs in Hd.
    by destruct (last_equals_unique _ _ _ _ Hd Hr Hv) as [-> ->].
  - done.
  - intros [Hd _]. rewrite Hd, occurs_app, str_app_cons in Hs.
    rewrite occurs_cons, decide_True, orb_true_r in Hs; done.
Qed.

Lemma is_config_match_None line :
  is_config_match line = None ↔ occurs EQUALS (dot_star line) = false.
Proof.
  unfold is_config_match. pose proof (dot_star_then_equals_sound line) as Hs.
  destruct (dot_star_then "=" line) as [[g rest]|]; [|done].
  split; [done|]. destruct Hs as [-> _].
  rewrite occurs_app, str_app_cons, occurs_cons, decide_True, orb_true_r; done.
Qed.

(** [is_not_set] takes for the symbol the longest text after ['# '] that
    is followed by [' is not set']. *)
Lemma is_not_set_match_spec line symbol :
  is_not_set_match line = Some symbol ↔
  ∃ body rest, line = "# " +:+ body ∧
               greedy_split " is not set" body symbol rest.
Proof.
  unfold is_not_set_match. split.
  - destruct (strip_prefix "# " line) as [body|] eqn:Hp; [|done].
    apply strip_prefix_Some in Hp.
    destruct (dot_star_then " is not set" body) as [[g rest]|] eqn:Hd; [|done].
    intros [= <-]. exists body, rest. split; [done|].
    by apply dot_star_then_spec.
  - intros (body & rest & -> & Hg). rewrite strip_prefix_app.
    apply dot_star_then_spec in Hg. by rewrite Hg.
Qed.

Lemma is_not_set_match_exact s tail :
  occurs LF s = false → tail = "" ∨ tail = nl →
  is_not_set_match ("# " +:+ s +:+ " is not set" +:+ tail) = Some s.
Proof.
  intros Hs Htail. unfold is_not_set_match. rewrite strip_prefix_app.
  rewrite (dot_star_then_app _ s _ "" tail Hs).
  - by rewrite str_app_nil_r.
  - by destruct Htail as [-> | ->].
Qed.

Lemma is_not_set_match_no_hash line :
  strip_prefix "# " line = None → is_not_set_match line = None.
Proof. unfold is_not_set_match. by intros ->. Qed.
End patterns.

(** ** One line of [load] *)

Section load_line.
Implicit Types (o : gmap string string) (sym val line : string).

Lemma load_line_not_set o line symbol :
  is_not_set_match line = Some symbol →
  load_line o line = <[replace_first "CONFIG_" symbol := "n"]> o.
Proof. unfold load_line. by intros ->. Qed.

Lemma load_line_config o line symbol value :
  is_not_set_match line = None →
  is_config_match line = Some (symbol, value) →
  load_line o line = <[replace_first "CONFIG_" symbol := value]> o.
Proof. unfold load_line. by intros -> ->. Qed.

Lemma load_line_ignored o line :
  is_not_set_match line = None → is_config_match line = None →
  load_line o line = o.
Proof. unfold load_line. by intros -> ->. Qed.

Lemma config_entry_single_line sym val :
  single_line sym → single_line val → single_line (config_entry sym val).
Proof.
  intros [??] [??]. unfold config_entry, single_line.
  destruct (decide (val = "n")); rewrite !occurs_app, ?orb_false_iff; naive_solver.
Qed.

(** The line [save] writes for an entry is read back as that entry. *)
Lemma load_line_entry o sym val :
  occurs LF sym = false → occurs LF val = false → occurs EQUALS val = false →
  load_line o (config_entry sym val +:+ nl) = <[sym := val]> o.
Proof.
  intros Hsym Hval Heq. unfold config_entry.
  destruct (decide (val = "n")) as [->|Hn].
  - rewrite (load_line_not_set _ _ ("CONFIG_" +:+ sym)).
    + by rewrite replace_first_prefix.
    + rewrite <-(is_not_set_match_exact ("CONFIG_" +:+ sym) nl); [|by rewrite occurs_app, Hsym|by right].
      by rewrite !str_app_assoc.
  - rewrite (load_line_config _ _ ("CONFIG_" +:+ sym) val).
    + by rewrite replace_first_prefix.
    + by apply is_not_set_match_no_hash.
    + apply is_config_match_spec. split; [|done].
      rewrite <-!str_app_assoc. unfold nl. rewrite dot_star_app; [done|].
      rewrite !occurs_app, Hsym, Hval. done.
Qed.
End load_line.

(** ** Sorting *)

Section sorting.
Implicit Types (l : list string) (its : list (string * string)).

Lemma sorted_Sorted l : Sorted String.le (sorted l).
Proof. apply (Sorted_merge_sort String.le). Qed.

Lemma sorted_perm l : sorted l ≡ₚ l.
Proof. apply merge_sort_Permutation. Qed.

(** There is one sorted arrangement of a list of strings: the result of
    [sorted] does not depend on the order of its argument, nor on the
    sorting algorithm. *)
Lemma sorted_unique l l' : Sorted String.le l' → l' ≡ₚ l → l' = sorted l.
Proof.
  intros Hs Hp. apply (Sorted_unique String.le); [done|apply sorted_Sorted|].
  by rewrite sorted_perm.
Qed.

Lemma sorted_proper l l' : l ≡ₚ l' → sorted l = sorted l'.
Proof.
  intros Hp. apply sorted_unique; [apply sorted_Sorted|].
  by rewrite sorted_perm.
Qed.

Lemma sorted_items_perm its : sorted_items its ≡ₚ its.
Proof. apply merge_sort_Permutation. Qed.

Lemma foldl_ext {A B} (f g : A → B → A) (a : A) (l : list B) :
  (∀ a x, f a x = g a x) → foldl f a l = foldl g a l.
Proof.
  intros Hfg. revert a. induction l as [|x l IH]; intros a; simpl; [done|].
  by rewrite Hfg, IH.
Qed.

Lemma foldl_snoc_fmap {A B} (f : A → B) (acc : list B) (l : list A) :
  foldl (λ acc x, acc ++ [f x]) acc l = acc ++ (f <$> l).
Proof.
  revert acc. induction l as [|x l IH]; intros acc; simpl.
  - by rewrite app_nil_r.
  - by rewrite IH, <-app_assoc.
Qed.

(** The loop of [save] formats every item, in the order of the items. *)
Lemma config_lines_fmap its :
  config_lines its = (λ it, config_entry it.1 it.2) <$> sorted_items its.
Proof.
  unfold config_lines.
  transitivity (foldl (λ acc it, acc ++ [config_entry it.1 it.2]) []
                      (sorted_items its)).
  - apply foldl_ext. by intros acc [sym val].
  - by rewrite foldl_snoc_fmap.
Qed.

Lemma config_lines_perm_items its :
  config_lines its ≡ₚ (λ it, config_entry it.1 it.2) <$> its.
Proof. by rewrite config_lines_fmap, sorted_items_perm. Qed.

(** The order in which the dictionary enumerates its items does not
    show in what [save] writes. *)
Lemma config_lines_perm its its' :
  its ≡ₚ its' → sorted (config_lines its) = sorted (config_lines its').
Proof.
  intros Hp. apply sorted_proper. by rewrite !config_lines_perm_items, Hp.
Qed.
End sorting.

(** ** Text files *)

Section text.
Implicit Types (s l : string) (ls : list string).

Lemma universal_newlines_id s : occurs CR s = false → universal_newlines s = s.
Proof.
  induction s as [|c s IH]; [done|]. rewrite occurs_cons. simpl.
  destruct (decide (c = CR)); [done|]. intros Hs. by rewrite IH.
Qed.

Lemma iter_lines_cons c s :
  iter_lines (String c s) =
    if decide (c = LF) then nl :: iter_lines s
    else match iter_lines s with
         | [] => [String c ""]
         | l :: ls => String c l :: ls
         end.
Proof. reflexivity. Qed.

Lemma iter_lines_nil s : iter_lines s = [] → s = "".
Proof.
  destruct s as [|c s]; [done|]. rewrite iter_lines_cons.
  destruct (decide (c = LF)); [done|]. by destruct (iter_lines s).
Qed.

Lemma iter_lines_line l : occurs LF l = false → iter_lines (l +:+ nl) = [l +:+ nl].
Proof.
  induction l as [|c l IH]; [done|]. rewrite occurs_cons, str_app_cons, iter_lines_cons.
  destruct (decide (c = LF)); [done|]. intros Hl. by rewrite IH.
Qed.

(** A text that ends a line can be read on its own. *)
Lemma iter_lines_app_nl s t :
  iter_lines (s +:+ nl +:+ t) = iter_lines (s +:+ nl) ++ iter_lines t.
Proof.
  induction s as [|c s IH]; [done|]. rewrite !str_app_cons, !iter_lines_cons.
  destruct (decide (c = LF)); [by rewrite IH|]. rewrite IH.
  destruct (iter_lines (s +:+ nl)) as [|l ls] eqn:Hl; [|done].
  apply iter_lines_nil in Hl. by destruct s.
Qed.

Lemma iter_lines_join ls :
  Forall (λ l, occurs LF l = false) ls → ls ≠ [] →
  iter_lines (join nl ls +:+ nl) = (λ l, l +:+ nl) <$> ls.
Proof.
  induction 1 as [|l ls Hl Hls IH]; intros Hne; [done|].
  destruct ls as [|l' ls]; [by apply iter_lines_line|].
  change (join nl (l :: l' :: ls)) with (l +:+ nl +:+ join nl (l' :: ls)).
  rewrite !str_app_assoc, iter_lines_app_nl, iter_lines_line, IH; done.
Qed.

Lemma occurs_join c ls :
  c ≠ LF → Forall (λ l, occurs c l = false) ls → occurs c (join nl ls) = false.
Proof.
  intros Hc. induction 1 as [|l ls Hl Hls IH]; [done|].
  destruct ls as [|l' ls]; [done|].
  change (join nl (l :: l' :: ls)) with (l +:+ nl +:+ join nl (l' :: ls)).
  rewrite !occurs_app, Hl, IH. simpl. by rewrite decide_False.
Qed.
End text.

(** ** Reading back what [save] wrote *)

Section read_back.
Implicit Types (o : gmap string string) (its : list (string * string)).

Lemma save_text_of_eq its :
  save_text_of its =
    DEFCONFIG_HEADER +:+ nl +:+ join nl (sorted (config_lines its)) +:+ nl.
Proof. unfold save_text_of, print_to. by rewrite str_app_nil_l, str_app_assoc. Qed.

(** The header block and an empty line leave the mapping alone. *)
Lemma load_lines_ignored o ls :
  Forall (λ l, is_not_set_match l = None ∧ is_config_match l = None) ls →
  load_lines o ls = o.
Proof.
  unfold load_lines. induction 1 as [|l ls [??] _ IH]; simpl; [done|].
  by rewrite load_line_ignored.
Qed.

Lemma header_lines_ignored :
  Forall (λ l, is_not_set_match l = None ∧ is_config_match l = None)
         (iter_lines (DEFCONFIG_HEADER +:+ nl) ++ [nl]).
Proof. apply (bool_decide_unpack _). vm_compute. exact I. Qed.

Lemma load_lines_header o :
  load_lines o (iter_lines (DEFCONFIG_HEADER +:+ nl)) = o.
Proof.
  apply load_lines_ignored. pose proof header_lines_ignored as H.
  by apply Forall_app in H as [H _].
Qed.

Lemma load_lines_entries o its :
  Forall (λ it, occurs LF it.1 = false ∧ occurs LF it.2 = false ∧
                occurs EQUALS it.2 = false) its →
  load_lines o ((λ it, config_entry it.1 it.2 +:+ nl) <$> its) =
    foldl (λ o it, <[it.1 := it.2]> o) o its.
Proof.
  unfold load_lines. intros H. revert o.
  induction H as [|it its (? & ? & ?) _ IH]; intros o; simpl; [done|].
  by rewrite load_line_entry, IH.
Qed.

Lemma foldl_insert_list_to_map its :
  foldl (λ o it, <[it.1 := it.2]> o) (∅ : gmap string string) its =
    list_to_map (reverse its).
Proof.
  induction its as [|it its IH] using rev_ind; [done|].
  rewrite foldl_snoc, reverse_snoc, IH. by destruct it.
Qed.

Lemma line_safe_items o :
  line_safe o →
  Forall (λ it, single_line it.1 ∧ single_line it.2 ∧
                occurs EQUALS it.2 = false) (items o).
Proof.
  intros Ho. apply Forall_forall. intros [sym val] Hin.
  apply elem_of_map_to_list in Hin. exact (Ho _ _ Hin).
Qed.

(** The lines of the file [save] writes: the header block, then the
    sorted entries (or one empty line when there is no entry). *)
Lemma file_lines_save_text_of its :
  Forall (λ it, single_line it.1 ∧ single_line it.2) its →
  file_lines (save_text_of its) =
    iter_lines (DEFCONFIG_HEADER +:+ nl) ++
    match sorted (config_lines its) with
    | [] => [nl]
    | ls => (λ l, l +:+ nl) <$> ls
    end.
Proof.
  intros Hits.
  assert (Hsl : Forall single_line (sorted (config_lines its))).
  { rewrite sorted_perm, config_lines_perm_items. apply Forall_fmap.
    eapply Forall_impl; [exact Hits|]. intros [sym val] [??].
    by apply config_entry_single_line. }
  unfold file_lines. rewrite save_text_of_eq, universal_newlines_id.
  - rewrite iter_lines_app_nl. f_equal.
    destruct (sorted (config_lines its)) as [|l ls] eqn:Hl; [done|].
    apply iter_lines_join; [|done].
    eapply Forall_impl; [exact Hsl|]. by intros l0 [??].
  - rewrite !occurs_app, !orb_false_iff. split_and!; [done|done| |done].
    apply occurs_join; [done|]. eapply Forall_impl; [exact Hsl|]. by intros l0 [??].
Qed.

(** Loading the text written for a line-safe mapping gives the mapping. *)
Lemma load_lines_save_text o :
  line_safe o → load_lines ∅ (file_lines (save_text o)) = o.
Proof.
  intros Ho. pose proof (line_safe_items o Ho) as Hits.
  unfold save_text. rewrite file_lines_save_text_of;
    [|eapply Forall_impl; [exact Hits|]; by intros it (? & ? & ?)].
  unfold load_lines. rewrite foldl_app. fold (load_lines ∅ (iter_lines (DEFCONFIG_HEADER +:+ nl))).
  rewrite load_lines_header.
  pose proof (transitivity (sorted_perm _) (config_lines_perm_items (items o)))
    as Hp.
  apply Permutation_map_inv in Hp as (its' & Heq & Hp').
  assert (load_lines ∅ ((λ l, l +:+ nl) <$> sorted (config_lines (items o))) = o)
    as Hload.
  { rewrite Heq. change (map ?f ?l) with (f <$> l). rewrite <-list_fmap_compose.
    change ((λ l, l +:+ nl) ∘ (λ it, config_entry it.1 it.2))
      with (λ it : string * string, config_entry it.1 it.2 +:+ nl).
    rewrite load_lines_entries.
    - rewrite foldl_insert_list_to_map.
      rewrite (list_to_map_proper _ (items o)).
      + apply list_to_map_to_list.
      + rewrite reverse_Permutation, <-Hp'. apply NoDup_fst_map_to_list.
      + by rewrite reverse_Permutation, <-Hp'.
    - rewrite <-Hp'. eapply Forall_impl; [exact Hits|].
      intros it ([??] & [??] & ?). done. }
  destruct (sorted (config_lines (items o))) as [|l ls] eqn:Hl; [|exact Hload].
  exact Hload.
Qed.
End read_back.

(** ** The loops of [save_diff] *)

Section diff.
Implicit Types (self target : gmap string string).
Implicit Types (its sits tits : list (string * string)).

Lemma diff_minus_acc self acc tits :
  foldl (λ minus '(sym, val),
           if decide (self !! sym = None)
           then minus ++ ["-" +:+ sym +:+ "=" +:+ val]
           else minus) acc tits =
    acc ++ ((λ it, "-" +:+ it.1 +:+ "=" +:+ it.2) <$>
              filter (λ it, self !! it.1 = None) tits).
Proof.
  revert acc. induction tits as [|[sym val] tits IH]; intros acc; simpl.
  - by rewrite app_nil_r.
  - rewrite IH, filter_cons. simpl.
    destruct (decide (self !! sym = None)); [|done].
    by rewrite fmap_cons, <-app_assoc.
Qed.

(** The first loop keeps the items of [target] whose symbol is not in
    [self]. *)
Lemma diff_minus_eq self tits :
  diff_minus self tits =
    (λ it, "-" +:+ it.1 +:+ "=" +:+ it.2) <$>
      filter (λ it, self !! it.1 = None) tits.
Proof. apply (diff_minus_acc self []). Qed.

Lemma diff_step_acc target st sits :
  foldl (diff_step target) st sits =
    (st.1 ++ ((λ it, "+" +:+ it.1 +:+ "=" +:+ it.2) <$>
                filter (λ it, target !! it.1 = None) sits),
     st.2 ++ omap (λ it, match target !! it.1 with
                         | Some tval =>
                             if decide (tval ≠ it.2)
                             then Some (" " +:+ it.1 +:+ "=" +:+ tval
                                          +:+ "->" +:+ it.2)
                             else None
                         | None => None
                         end) sits).
Proof.
  revert st. induction sits as [|[sym val] sits IH]; intros [plus changes]; simpl.
  - by rewrite !app_nil_r.
  - rewrite IH, filter_cons. simpl.
    destruct (target !! sym) as [tval|] eqn:Ht; simpl;
      repeat case_decide; try done; simpl; by rewrite <-?app_assoc.
Qed.

(** The second loop sorts the items of [self] into those whose symbol is
    not in [target] and those whose value differs from the one in
    [target]. *)
Lemma diff_plus_changes_eq target sits :
  diff_plus_changes target sits =
    ((λ it, "+" +:+ it.1 +:+ "=" +:+ it.2) <$>
       filter (λ it, target !! it.1 = None) sits,
     omap (λ it, match target !! it.1 with
                 | Some tval =>
                     if decide (tval ≠ it.2)
                     then Some (" " +:+ it.1 +:+ "=" +:+ tval +:+ "->" +:+ it.2)
                     else None
                 | None => None
                 end) sits).
Proof. apply (diff_step_acc target ([], [])). Qed.

Lemma diff_out_of_eq self target sits tits :
  diff_out_of self target sits tits =
    sorted (diff_minus self tits) ++
    sorted (diff_plus_changes target sits).2 ++
    sorted (diff_plus_changes target sits).1.
Proof. unfold diff_out_of. by destruct (diff_plus_changes target sits). Qed.

(** The order in which the two dictionaries enumerate their items does
    not show in what [save_diff] writes. *)
Lemma diff_out_perm self target sits tits :
  sits ≡ₚ items self → tits ≡ₚ items target →
  diff_out_of self target sits tits = diff_out self target.
Proof.
  intros Hs Ht. unfold diff_out. rewrite !diff_out_of_eq.
  rewrite !diff_minus_eq, !diff_plus_changes_eq. simpl.
  f_equal; [|f_equal]; apply sorted_proper; by rewrite ?Hs, ?Ht.
Qed.

Lemma NoDup_omap_inj {A B} (h : A → option B) (l : list A) :
  (∀ x y z, h x = Some z → h y = Some z → x = y) →
  NoDup l → NoDup (omap h l).
Proof.
  intros Hinj. induction 1 as [|x l Hx Hl IH]; simpl; [constructor|].
  destruct (h x) as [z|] eqn:Hz; [|done].
  constructor; [|done]. rewrite list_elem_of_omap. intros (y & Hy & Hhy).
  by rewrite (Hinj _ _ _ Hz Hhy) in Hx.
Qed.

Lemma map_to_list_filter_perm (P : string * string → Prop)
    `{∀ x, Decision (P x)} (m : gmap string string) :
  map_to_list (filter P m) ≡ₚ filter P (map_to_list m).
Proof.
  apply NoDup_Permutation.
  - apply NoDup_map_to_list.
  - apply NoDup_filter, NoDup_map_to_list.
  - intros [k v]. rewrite list_elem_of_filter, !elem_of_map_to_list.
    rewrite map_lookup_filter_Some. tauto.
Qed.

(** The changed symbols, from the side of the two mappings: the pairs of
    values of the symbols in both, where the values differ. *)
Lemma changes_perm self target :
  omap (λ it, match target !! it.1 with
              | Some tval =>
                  if decide (tval ≠ it.2)
                  then Some (" " +:+ it.1 +:+ "=" +:+ tval +:+ "->" +:+ it.2)
                  else None
              | None => None
              end) (map_to_list self)
  ≡ₚ (λ e, " " +:+ e.1 +:+ "=" +:+ e.2.1 +:+ "->" +:+ e.2.2) <$>
       map_to_list (filter (λ e, e.2.1 ≠ e.2.2) (map_zip target self)).
Proof.
  set (h := λ it : string * string,
         match target !! it.1 with
         | Some tval => if decide (tval ≠ it.2)
                        then Some (it.1, (tval, it.2)) else None
         | None => None
         end).
  set (fmt := λ e : string * (string * string),
         " " +:+ e.1 +:+ "=" +:+ e.2.1 +:+ "->" +:+ e.2.2).
  trans (fmt <$> omap h (map_to_list self)).
  { rewrite list_fmap_omap. apply reflexive_eq, list_omap_ext.
    apply Forall2_same_length_lookup_2; [done|].
    intros i x y Hx Hy. assert (x = y) as -> by congruence. unfold h, fmt.
    destruct (target !! y.1); [|done]. simpl. by destruct (decide _). }
  apply fmap_Permutation, NoDup_Permutation.
  - apply NoDup_omap_inj; [|apply NoDup_map_to_list].
    intros [k v] [k' v'] e. unfold h. simpl.
    destruct (target !! k); [|done]. destruct (target !! k'); [|done].
    destruct (decide _); [|done]. destruct (decide _); [|done].
    intros [= <-] [= <- _ <-]. done.
  - apply NoDup_map_to_list.
  - intros [k [tv v]]. rewrite list_elem_of_omap, elem_of_map_to_list.
    rewrite map_lookup_filter_Some, map_lookup_zip_Some. simpl. split.
    + intros ([k' v'] & Hin & Hh). apply elem_of_map_to_list in Hin.
      unfold h in Hh. simpl in Hh. destruct (target !! k') as [tval|] eqn:Ht; [|done].
      destruct (decide (tval ≠ v')); [|done]. by injection Hh as -> -> ->.
    + intros [[Ht Hs] Hne]. exists (k, v). split; [by apply elem_of_map_to_list|].
      unfold h. simpl. rewrite Ht. by rewrite decide_True.
Qed.
End diff.

(** ** What [load] stores *)

Section stored.
Implicit Types (o : gmap string string) (s line symbol value : string).

Lemma contains_unfold old s :
  contains old s =
    match strip_prefix old s with
    | Some _ => true
    | None => match s with "" => false | String _ s' => contains old s' end
    end.
Proof. by destruct s. Qed.

Lemma replace_first_absent old s :
  contains old s = false → replace_first old s = s.
Proof.
  induction s as [|c s IH]; rewrite contains_unfold, replace_first_unfold;
    destruct (strip_prefix old _); try done.
  intros Hs. by rewrite IH.
Qed.

Lemma occurs_replace_first c old s :
  occurs c s = false → occurs c (replace_first old s) = false.
Proof.
  induction s as [|a s IH]; rewrite replace_first_unfold;
    destruct (strip_prefix old _) as [rest|] eqn:Hp.
  - apply strip_prefix_Some in Hp as ->. rewrite occurs_app_false. tauto.
  - done.
  - apply strip_prefix_Some in Hp as ->. rewrite occurs_app_false. tauto.
  - rewrite !occurs_cons. destruct (decide (a = c)); [done|]. apply IH.
Qed.

(** The symbol text of a disabled-option line is on one line. *)
Lemma is_not_set_match_safe line symbol :
  is_not_set_match line = Some symbol →
  occurs LF symbol = false ∧
  ∀ c, occurs c line = false → occurs c symbol = false.
Proof.
  intros (body & rest & -> & -> & HLF & _)%is_not_set_match_spec.
  split; [done|]. intros c. rewrite !occurs_app_false. tauto.
Qed.

(** Symbol text and value of an assignment line are on one line, and the
    value holds no ['=']. *)
Lemma is_config_match_safe line symbol value :
  is_config_match line = Some (symbol, value) →
  occurs LF symbol = false ∧ occurs LF value = false ∧
  occurs EQUALS value = false ∧
  ∀ c, occurs c line = false → occurs c symbol = false ∧ occurs c value = false.
Proof.
  intros [Hd Heq]%is_config_match_spec.
  pose proof (dot_star_no_LF line) as HLF.
  rewrite Hd, !occurs_app_false in HLF. destruct HLF as (? & _ & ?).
  split_and!; try done. intros c.
  destruct (dot_star_split line) as (tail & Hl & _).
  rewrite Hl, Hd, !occurs_app_false. tauto.
Qed.

Lemma load_line_safe o line :
  occurs CR line = false → line_safe o → line_safe (load_line o line).
Proof.
  intros HCR Ho. unfold load_line.
  destruct (is_not_set_match line) as [symbol|] eqn:Hn.
  - apply is_not_set_match_safe in Hn as [HLF Hc].
    apply map_Forall_insert_2; [|done]. unfold single_line.
    split_and!; try done; apply occurs_replace_first; auto.
  - destruct (is_config_match line) as [[symbol value]|] eqn:Hm; [|done].
    apply is_config_match_safe in Hm as (? & ? & ? & Hc).
    destruct (Hc CR HCR). apply map_Forall_insert_2; [|done].
    unfold single_line. split_and!; try done; by apply occurs_replace_first.
Qed.

Lemma universal_newlines_no_CR s : occurs CR (universal_newlines s) = false.
Proof.
  induction s as [|c s IH]; [done|]. simpl.
  destruct (decide (c = CR)) as [->|Hc].
  - destruct s as [|c' s]; [done|]. destruct (decide (c' = LF)); [done|].
    rewrite occurs_cons. by rewrite decide_False.
  - rewrite occurs_cons. by rewrite decide_False.
Qed.

Lemma iter_lines_occurs c s :
  occurs c s = false → Forall (λ l, occurs c l = false) (iter_lines s).
Proof.
  induction s as [|a s IH]; [constructor|].
  rewrite occurs_cons, iter_lines_cons. destruct (decide (a = c)) as [|Hac]; [done|].
  intros Hs. specialize (IH Hs). destruct (decide (a = LF)) as [->|].
  - constructor; [|done]. simpl. by rewrite decide_False.
  - destruct (iter_lines s) as [|l ls].
    + repeat constructor. simpl. by rewrite decide_False.
    + apply Forall_cons in IH as [??]. constructor; [|done].
      rewrite occurs_cons. by rewrite decide_False.
Qed.

Lemma load_lines_safe o content :
  line_safe o → line_safe (load_lines o (file_lines content)).
Proof.
  unfold load_lines, file_lines.
  pose proof (iter_lines_occurs CR _ (universal_newlines_no_CR content)) as Hls.
  revert o. induction Hls as [|l ls Hl _ IH]; intros o Ho; simpl; [done|].
  by apply IH, load_line_safe.
Qed.

(** Every mapping [load] builds from a line-safe one (the empty mapping
    of a new [Defconfig], for one) is line-safe. *)
Lemma load_safe fs self p :
  line_safe (opts self) → line_safe (opts (load fs self p).2).
Proof.
  intros Ho. unfold load. destruct (resolve self p) as [p'|]; [|done].
  destruct (fs !! p') as [[content|readable|]|]; try done;
    by apply load_lines_safe.
Qed.


(** Nothing else is read back as it was: the mapping a new [Defconfig]
    loads is line-safe, whatever the file. *)
Lemma loaded_line_safe fs q p o :
  load fs (init q) (Some p) = (Returns None, mkDefconfig q o) → line_safe o.
Proof.
  intros H. pose proof (load_safe fs (init q) (Some p)) as Hs.
  rewrite H in Hs. apply Hs. apply map_Forall_empty.
Qed.
End stored.

(** ** The written text, line by line *)

Section written.
Implicit Types (o : gmap string string) (out : list string) (line : string).

Lemma join_nl_lines out : join nl out +:+ nl = each_on_a_line out.
Proof.
  destruct out as [|x out]; [done|]. revert x.
  induction out as [|y out IH]; intros x; [done|].
  change (join nl (x :: y :: out)) with (x +:+ nl +:+ join nl (y :: out)).
  rewrite !str_app_assoc, (IH y). done.
Qed.

Lemma str_app_nl_inj s t : s +:+ nl = t +:+ nl → s = t.
Proof.
  revert t. induction s as [|a s IH]; intros [|b t] H; try done.
  - rewrite str_app_cons in H. injection H as _ H. by destruct t.
  - rewrite str_app_cons in H. injection H as _ H. by destruct s.
  - rewrite !str_app_cons in H. injection H as -> H. by rewrite (IH t H).
Qed.

Lemma is_not_set_match_None line :
  is_not_set_match line = None ↔
  ¬ ∃ s rest, line = "# " +:+ s +:+ " is not set" +:+ rest ∧ occurs LF s = false.
Proof.
  unfold is_not_set_match. split.
  - intros Hm (s & rest & -> & HLF). rewrite strip_prefix_app in Hm.
    destruct (dot_star_then " is not set" (s +:+ " is not set" +:+ rest))
      as [[g r]|] eqn:Hd; [done|].
    rewrite dot_star_then_None in Hd. specialize (Hd s rest eq_refl). congruence.
  - intros Hno. destruct (strip_prefix "# " line) as [body|] eqn:Hp; [|done].
    apply strip_prefix_Some in Hp as ->.
    destruct (dot_star_then " is not set" body) as [[g r]|] eqn:Hd; [|done].
    apply dot_star_then_spec in Hd as (-> & HLF & _). destruct Hno. eauto.
Qed.

(** The seven lines of the header, as [load] reads them. *)
Lemma header_lines :
  iter_lines (DEFCONFIG_HEADER +:+ nl) =
    [ "#" +:+ nl;
      "# This file is autogenerated: PLEASE DO NOT EDIT IT." +:+ nl;
      "#" +:+ nl;
      "# You can use " +:+ dquote +:+ "make menuconfig" +:+ dquote +:+
        " to make any modifications to the installed .config file." +:+ nl;
      "# You can then do " +:+ dquote +:+ "make savedefconfig" +:+ dquote +:+
        " to generate a new defconfig file that includes your" +:+ nl;
      "# modifications." +:+ nl;
      "#" +:+ nl ].
Proof. by vm_compute. Qed.


End written.

(** ** Round trips through [save] and [load] *)







(** ** The lines [load] accepts *)

(** What [is_config] does with a line that is not a disabled-option
    line: the text before the line feed is cut at its last ['='], the
    part after it is stored as the value. *)
Lemma assignment_cut_at_last_equals o line symbol value :
  is_not_set_match line = None →
  dot_star line = symbol +:+ "=" +:+ value →
  occurs EQUALS value = false →
  is_config_match line = Some (symbol, value) ∧
  load_line o line = <[replace_first "CONFIG_" symbol := value]> o.
Proof.
  intros Hn Hd Hv.
  assert (is_config_match line = Some (symbol, value)) as Hm
    by by apply is_config_match_spec.
  split; [done|]. by apply load_line_config.
Qed.

(** C2 holds of the format and the code breaks it.  On the Kconfig line
    [CONFIG_CMDLINE="console=ttyS1"] the value is everything after the
    first ['='], the quoted string; the greedy symbol group of
    [is_config] runs to the last ['='] instead, so [load] stores the
    value [ttyS1"] under the symbol [CMDLINE="console], and nothing
    under [CMDLINE]. *)
Theorem assignment_value_cut_at_last_equals :
  let line := "CONFIG_CMDLINE=" +:+ dquote +:+ "console=ttyS1" +:+ dquote +:+ nl in
  line = "CONFIG_CMDLINE" +:+ "=" +:+
         (dquote +:+ "console=ttyS1" +:+ dquote) +:+ nl ∧
  occurs EQUALS "CONFIG_CMDLINE" = false ∧
  is_config_match line =
    Some ("CONFIG_CMDLINE=" +:+ dquote +:+ "console", "ttyS1" +:+ dquote) ∧
  load_line ∅ line =
    {[ "CMDLINE=" +:+ dquote +:+ "console" := "ttyS1" +:+ dquote ]} ∧
  load_line ∅ line !! "CMDLINE" = None.
Proof. by vm_compute. Qed.

(** C3, as stated, fails: [load] accepts the line [CONFIG_CONFIG_A=y] and
    stores it under the key [CONFIG_A], which contains (and starts with)
    the on-disk prefix. *)
Lemma stored_key_with_prefix :
  load {[ "defconfig" := File ("CONFIG_CONFIG_A=y" +:+ nl) ]} (init None)
       (Some "defconfig") =
    (Returns None, mkDefconfig None {[ "CONFIG_A" := "y" ]}) ∧
  contains "CONFIG_" "CONFIG_A" = true.
Proof. by vm_compute. Qed.

(** C3, amended: for every line [load] accepts, the key stored is the
    symbol text of the line with its first occurrence of ['CONFIG_']
    removed, one occurrence only: a symbol text ['CONFIG_' + NAME] is
    stored under [NAME], whatever [NAME] contains, and a symbol text
    without ['CONFIG_'] under itself.  [save] writes the entry with
    ['CONFIG_'] put back in front of the key, and [load] of that line
    stores the same entry again. *)
Theorem stored_key_strips_first_prefix o line symbol value :
  (is_not_set_match line = Some symbol ∧ value = "n") ∨
  (is_not_set_match line = None ∧ is_config_match line = Some (symbol, value)) →
  let key := replace_first "CONFIG_" symbol in
  load_line o line = <[key := value]> o ∧
  (∀ name, symbol = "CONFIG_" +:+ name → key = name) ∧
  (contains "CONFIG_" symbol = false → key = symbol) ∧
  (∃ rest, config_entry key value = "CONFIG_" +:+ key +:+ rest ∨
           config_entry key value = "# CONFIG_" +:+ key +:+ rest) ∧
  load_line o (config_entry key value +:+ nl) = load_line o line.
Proof.
  intros Hacc key.
  assert (load_line o line = <[key := value]> o) as Hload.
  { destruct Hacc as [[Hn ->]|[Hn Hm]].
    - by apply load_line_not_set.
    - by apply load_line_config. }
  assert (occurs LF symbol = false ∧ occurs LF value = false ∧
          occurs EQUALS value = false) as (Hs & Hv & He).
  { destruct Hacc as [[Hn ->]|[Hn Hm]].
    - by apply is_not_set_match_safe in Hn as [? _].
    - apply is_config_match_safe in Hm as (? & ? & ? & _). done. }
  split; [done|]. split; [|split; [|split]].
  - intros name ->. apply replace_first_prefix.
  - apply replace_first_absent.
  - unfold config_entry. destruct (decide (value = "n")); eauto.
  - rewrite Hload. apply load_line_entry; try done.
    by apply occurs_replace_first.
Qed.

(** [stored_key_strips_first_prefix] on the line [CONFIG_DEBUG=y]. *)
Lemma stored_key_strips_first_prefix_witness :
  load_line ∅ ("CONFIG_DEBUG=y" +:+ nl) = {[ "DEBUG" := "y" ]} ∧
  load_line ∅ (config_entry "DEBUG" "y" +:+ nl) =
    load_line ∅ ("CONFIG_DEBUG=y" +:+ nl).
Proof.
  assert (H : (is_not_set_match ("CONFIG_DEBUG=y" +:+ nl) = Some "CONFIG_DEBUG"
               ∧ "y" = "n") ∨
              (is_not_set_match ("CONFIG_DEBUG=y" +:+ nl) = None ∧
               is_config_match ("CONFIG_DEBUG=y" +:+ nl)
                 = Some ("CONFIG_DEBUG", "y"))).
  { right. split; reflexivity. }
  destruct (stored_key_strips_first_prefix ∅ _ _ _ H) as (H1 & _ & _ & _ & H2).
  split; [exact H1|exact H2].
Defined.




(** C10: [load] is total over the text of the file.  [load] raises only
    when the path is a directory or the bytes of the file do not decode,
    never because of what a line says: for a file that decodes to any
    text whatsoever it returns [None], with the mapping folded over the
    lines.  And every line, of any text, falls in exactly one of three
    cases: it starts with ['# '] followed on the same line by
    [' is not set'] and is stored as a disabled option; or else the
    text before its line feed holds an ['='] and is stored as an
    assignment, cut at the last ['=']; or else it is skipped and the
    mapping stays as it is. *)
Theorem load_total fs self p :
  ((∃ e, (load fs self p).1 = Raises e) ↔
     ∃ p', resolve self p = Some p' ∧
           (fs !! p' = Some Dir ∨ ∃ readable, fs !! p' = Some (Garbled readable))) ∧
  (∀ p' content,
     resolve self p = Some p' → fs !! p' = Some (File content) →
     load fs self p =
       (Returns None,
        mkDefconfig (path self) (load_lines (opts self) (file_lines content)))) ∧
  (∀ o line,
     let disabled :=
       ∃ s rest, line = "# " +:+ s +:+ " is not set" +:+ rest ∧
                 occurs LF s = false in
     (disabled ∧ ∃ key, load_line o line = <[key := "n"]> o) ∨
     (¬ disabled ∧ occurs EQUALS (dot_star line) = true ∧
      ∃ symbol value,
        dot_star line = symbol +:+ "=" +:+ value ∧
        occurs EQUALS value = false ∧
        load_line o line = <[replace_first "CONFIG_" symbol := value]> o) ∨
     (¬ disabled ∧ occurs EQUALS (dot_star line) = false ∧
      load_line o line = o)).
Proof.
  split; [|split].
  - unfold load. destruct (resolve self p) as [p'|]; simpl.
    + destruct (fs !! p') as [[content|readable|]|] eqn:Hf; simpl.
      * split; [by intros [e ?]|].
        intros (p'' & [= <-] & [?|[r ?]]); congruence.
      * split; [|by eauto]. intros _. exists p'. eauto.
      * split; [|by eauto]. intros _. exists p'. eauto.
      * split; [by intros [e ?]|].
        intros (p'' & [= <-] & [?|[r ?]]); congruence.
    + split; [by intros [e ?]|]. by intros (p' & ? & _).
  - intros p' content Hp Hf. unfold load. by rewrite Hp, Hf.
  - intros o line disabled.
    destruct (is_not_set_match line) as [symbol|] eqn:Hn.
    + left. split.
      * apply is_not_set_match_spec in Hn
          as (body & rest & -> & -> & HLF & _). unfold disabled. eauto.
      * eexists. by apply load_line_not_set.
    + right. pose proof (proj1 (is_not_set_match_None line) Hn) as Hnd.
      destruct (is_config_match line) as [[symbol value]|] eqn:Hm.
      * left. split; [done|].
        pose proof (proj1 (is_config_match_spec _ _ _) Hm) as [Hd Hv].
        split.
        -- rewrite Hd, !occurs_app. simpl. by rewrite orb_true_r.
        -- exists symbol, value. split_and!; try done.
           by apply load_line_config.
      * right. split; [done|]. split; [by apply is_config_match_None|].
        by apply load_line_ignored.
Qed.

(** [load_total] on a file with a line of each kind, and on a file whose
    bytes stop decoding after its first line. *)
Lemma load_total_witness :
  load {[ "defconfig" :=
            File ("# CONFIG_SMP is not set" +:+ nl +:+
                  "CONFIG_DEBUG=y" +:+ nl +:+ "no assignment here" +:+ nl) ]}
       (init (Some "defconfig")) None =
    (Returns None,
     mkDefconfig (Some "defconfig") {[ "SMP" := "n"; "DEBUG" := "y" ]}) ∧
  ∃ e, (load {[ "defconfig" := Garbled ("CONFIG_DEBUG=y" +:+ nl) ]}
             (init (Some "defconfig")) None).1 = Raises e.
Proof.
  split.
  - refine (eq_trans (proj1 (proj2 (load_total _ (init (Some "defconfig")) None))
                        "defconfig" _ _ _) _);
      [reflexivity|reflexivity|by vm_compute].
  - apply (proj1 (load_total _ (init (Some "defconfig")) None)).
    exists "defconfig". split; [reflexivity|]. right. eexists. reflexivity.
Defined.

(** C6: if [load] is called without a path on an instance without bound
    path, or the resolved path does not exist, [load] returns [-1] and
    the instance is what it was before the call. *)
Theorem load_not_found fs self p :
  (p = None ∧ path self = None) ∨
  (∃ p', resolve self p = Some p' ∧ fs !! p' = None) →
  load fs self p = (Returns (Some (-1)%Z), self).
Proof.
  intros [[-> Hp]|(p' & Hp & Hf)]; unfold load.
  - simpl. by rewrite Hp.
  - by rewrite Hp, Hf.
Qed.

(** [load_not_found] without any path, and with a path that does not
    exist. *)
Lemma load_not_found_witness :
  load ∅ (mkDefconfig None {[ "DEBUG" := "y" ]}) None =
    (Returns (Some (-1)%Z), mkDefconfig None {[ "DEBUG" := "y" ]}) ∧
  load {[ "other" := File "CONFIG_SMP=y" ]}
       (mkDefconfig (Some "bound") {[ "DEBUG" := "y" ]}) (Some "defconfig") =
    (Returns (Some (-1)%Z), mkDefconfig (Some "bound") {[ "DEBUG" := "y" ]}).
Proof.
  split.
  - apply load_not_found. left. split; reflexivity.
  - apply load_not_found. right. exists "defconfig". split; reflexivity.
Defined.

(** ** What [save] and [save_diff] write *)

(** C7: [save] writes, to the resolved path, the fixed header block
    first and then the entry lines, [# CONFIG_SYMBOL is not set] for a
    symbol with the value ['n'] and [CONFIG_SYMBOL=VALUE] for any other,
    each followed by a line feed and sorted lexicographically as whole
    lines; the file is the same for every order [its] in which the
    dictionary enumerates its items. *)
Theorem save_header_then_sorted_entries fs self p p' its :
  its ≡ₚ items (opts self) →
  resolve self p = Some p' →
  fs !! p' ≠ Some Dir →
  ∃ entries,
    Sorted String.le entries ∧
    entries ≡ₚ
      (λ it, if decide (it.2 = "n")
             then "# CONFIG_" +:+ it.1 +:+ " is not set"
             else "CONFIG_" +:+ it.1 +:+ "=" +:+ it.2) <$> map_to_list (opts self) ∧
    save_text_of its = DEFCONFIG_HEADER +:+ nl +:+ each_on_a_line entries ∧
    save fs self p =
      (Returns None,
       <[p' := File (DEFCONFIG_HEADER +:+ nl +:+ each_on_a_line entries)]> fs).
Proof.
  intros Hits Hp Hdir. exists (sorted (config_lines its)).
  assert (Htext : save_text_of its =
    DEFCONFIG_HEADER +:+ nl +:+ each_on_a_line (sorted (config_lines its))).
  { by rewrite save_text_of_eq, join_nl_lines. }
  split_and!.
  - apply sorted_Sorted.
  - by rewrite sorted_perm, config_lines_perm_items, Hits.
  - exact Htext.
  - rewrite <-Htext. unfold save, write_file. rewrite Hp.
    assert (save_text (opts self) = save_text_of its) as ->.
    { unfold save_text. by rewrite !save_text_of_eq, (config_lines_perm _ _ Hits). }
    by destruct (fs !! p') as [[| |]|].
Qed.

(** [save_header_then_sorted_entries] on a dictionary filled in the order
    [Z], [B], [A] and saved to its bound path: the disabled [B] comes
    first, ['#'] being smaller than ['C']. *)
Lemma save_header_then_sorted_entries_witness :
  save ∅ (mkDefconfig (Some "defconfig") {[ "Z" := "1"; "B" := "n"; "A" := "y" ]})
       None =
    (Returns None,
     {[ "defconfig" :=
          File ("#" +:+ nl +:+
                "# This file is autogenerated: PLEASE DO NOT EDIT IT." +:+ nl +:+
                "#" +:+ nl +:+
                "# You can use " +:+ dquote +:+ "make menuconfig" +:+ dquote +:+
                " to make any modifications to the installed .config file."
                  +:+ nl +:+
                "# You can then do " +:+ dquote +:+ "make savedefconfig" +:+ dquote +:+
                " to generate a new defconfig file that includes your" +:+ nl +:+
                "# modifications." +:+ nl +:+
                "#" +:+ nl +:+
                "# CONFIG_B is not set" +:+ nl +:+
                "CONFIG_A=y" +:+ nl +:+
                "CONFIG_Z=1" +:+ nl) ]}).
Proof.
  destruct (save_header_then_sorted_entries ∅
              (mkDefconfig (Some "defconfig")
                 {[ "Z" := "1"; "B" := "n"; "A" := "y" ]}) None "defconfig"
              [("Z", "1"); ("B", "n"); ("A", "y")])
    as (entries & _ & _ & Htext & ->).
  - apply (bool_decide_unpack _). by vm_compute.
  - reflexivity.
  - by vm_compute.
  - rewrite <-Htext. by vm_compute.
Defined.

Section diff_groups.
Implicit Types (self target : Defconfig).

Lemma filter_none {A} (P : A → Prop) `{∀ x, Decision (P x)} (l : list A) :
  Forall (λ x, ¬ P x) l → filter P l = [].
Proof.
  induction 1 as [|x l Hx _ IH]; [done|]. by rewrite filter_cons_False.
Qed.

Lemma omap_none {A B} (h : A → option B) (l : list A) :
  Forall (λ x, h x = None) l → omap h l = [].
Proof. induction 1 as [|x l Hx _ IH]; [done|]. simpl. by rewrite Hx. Qed.

Lemma diff_out_same (o : gmap string string) : diff_out o o = [].
Proof.
  unfold diff_out. rewrite diff_out_of_eq, diff_minus_eq, diff_plus_changes_eq.
  cbn [fst snd].
  assert (Hin : Forall (λ it, o !! it.1 = Some it.2) (items o)).
  { apply Forall_forall. intros [k v]. apply elem_of_map_to_list. }
  rewrite filter_none, omap_none; [done| |].
  - eapply Forall_impl; [exact Hin|]. intros [k v] Hk. simpl in *.
    rewrite Hk. by rewrite decide_False by (by intros ?).
  - eapply Forall_impl; [exact Hin|]. intros [k v] Hk. simpl in *. congruence.
Qed.
End diff_groups.

(** C4, as stated, fails: for two identical mappings [save_diff] writes
    no diff line, but the file is not empty; [print] ends the (empty)
    text with a line feed. *)
Lemma save_diff_identical_not_empty :
  let o : gmap string string := {[ "DEBUG" := "y" ]} in
  ∃ fs', save_diff ∅ (mkDefconfig (Some "defconfig") o) (mkDefconfig None o) None
           = (Returns None, fs') ∧
         fs' !! "defconfig" = Some (File nl) ∧ nl ≠ "".
Proof. eexists. split; [reflexivity|]. split; by vm_compute. Qed.

(** C4, amended: for every pair of Configuration Sets with identical
    mappings, [save_diff] produces no diff line, and the content of the
    written file is the single line feed that ends the output. *)
Theorem save_diff_identical fs self target p :
  opts self = opts target →
  diff_out (opts self) (opts target) = [] ∧
  diff_text (opts self) (opts target) = nl ∧
  save_diff fs self target p = write_file fs (resolve self p) nl.
Proof.
  intros Heq. unfold save_diff, diff_text. rewrite Heq, diff_out_same.
  split_and!; reflexivity.
Qed.

(** [save_diff_identical] on twice the mapping [DEBUG ↦ y], [SMP ↦ n]. *)
Lemma save_diff_identical_witness :
  let o : gmap string string := {[ "DEBUG" := "y"; "SMP" := "n" ]} in
  save_diff ∅ (mkDefconfig (Some "defconfig") o) (mkDefconfig None o) None =
    (Returns None, {[ "defconfig" := File nl ]}).
Proof.
  intros o.
  destruct (save_diff_identical ∅ (mkDefconfig (Some "defconfig") o)
              (mkDefconfig None o) None eq_refl) as (_ & _ & ->).
  reflexivity.
Defined.

(** C5: [save_diff] writes three groups of lines to the resolved path.
    [minus] holds a line [-SYMBOL=VALUE_IN_OTHER] for each symbol only in
    [other], [plus] a line [+SYMBOL=VALUE_IN_SELF] for each symbol only
    in [self], and [changes] a line
    [ SYMBOL=VALUE_IN_OTHER->VALUE_IN_SELF] for each symbol in both with
    differing values; the groups differ in the first character of their
    lines, each group is sorted lexicographically by the text of its
    lines, and the file holds the lines of [minus], then those of
    [changes], then those of [plus], each followed by a line feed,
    whatever the order [sits], [tits] in which the two dictionaries
    enumerate their items. *)
Theorem save_diff_groups fs self target p p' sits tits :
  sits ≡ₚ items (opts self) →
  tits ≡ₚ items (opts target) →
  resolve self p = Some p' →
  fs !! p' ≠ Some Dir →
  ∃ minus changes plus,
    diff_out_of (opts self) (opts target) sits tits = minus ++ changes ++ plus ∧
    save_diff fs self target p =
      (Returns None,
       <[p' := File (each_on_a_line (minus ++ changes ++ plus))]> fs) ∧
    Sorted String.le minus ∧ Sorted String.le changes ∧ Sorted String.le plus ∧
    minus ≡ₚ
      (λ e, "-" +:+ e.1 +:+ "=" +:+ e.2) <$>
        map_to_list (filter (λ e, opts self !! e.1 = None) (opts target)) ∧
    plus ≡ₚ
      (λ e, "+" +:+ e.1 +:+ "=" +:+ e.2) <$>
        map_to_list (filter (λ e, opts target !! e.1 = None) (opts self)) ∧
    changes ≡ₚ
      (λ e, " " +:+ e.1 +:+ "=" +:+ e.2.1 +:+ "->" +:+ e.2.2) <$>
        map_to_list (filter (λ e, e.2.1 ≠ e.2.2)
                            (map_zip (opts target) (opts self))) ∧
    Forall (λ l, ∃ r, l = "-" +:+ r) minus ∧
    Forall (λ l, ∃ r, l = " " +:+ r) changes ∧
    Forall (λ l, ∃ r, l = "+" +:+ r) plus.
Proof.
  intros Hs Ht Hp Hdir.
  pose proof (diff_out_perm _ _ _ _ Hs Ht) as Hout.
  assert (Hm : sorted (diff_minus (opts self) (items (opts target))) ≡ₚ
    (λ e, "-" +:+ e.1 +:+ "=" +:+ e.2) <$>
      map_to_list (filter (λ e, opts self !! e.1 = None) (opts target))).
  { by rewrite sorted_perm, diff_minus_eq, map_to_list_filter_perm. }
  assert (Hpl : sorted (diff_plus_changes (opts target) (items (opts self))).1 ≡ₚ
    (λ e, "+" +:+ e.1 +:+ "=" +:+ e.2) <$>
      map_to_list (filter (λ e, opts target !! e.1 = None) (opts self))).
  { by rewrite sorted_perm, diff_plus_changes_eq, map_to_list_filter_perm. }
  assert (Hc : sorted (diff_plus_changes (opts target) (items (opts self))).2 ≡ₚ
    (λ e, " " +:+ e.1 +:+ "=" +:+ e.2.1 +:+ "->" +:+ e.2.2) <$>
      map_to_list (filter (λ e, e.2.1 ≠ e.2.2)
                          (map_zip (opts target) (opts self)))).
  { rewrite sorted_perm, diff_plus_changes_eq. apply changes_perm. }
  exists (sorted (diff_minus (opts self) (items (opts target)))),
         (sorted (diff_plus_changes (opts target) (items (opts self))).2),
         (sorted (diff_plus_changes (opts target) (items (opts self))).1).
  split_and!; try apply sorted_Sorted; try done.
  - rewrite Hout. apply diff_out_of_eq.
  - unfold save_diff, write_file, diff_text, print_to, diff_out.
    rewrite Hp, diff_out_of_eq, str_app_nil_l, join_nl_lines.
    by destruct (fs !! p') as [[| |]|].
  - rewrite Hm. apply Forall_fmap, Forall_forall. intros e _. simpl. eauto.
  - rewrite Hc. apply Forall_fmap, Forall_forall. intros e _. simpl. eauto.
  - rewrite Hpl. apply Forall_fmap, Forall_forall. intros e _. simpl. eauto.
Qed.

(** [save_diff_groups] on [self = {A: 1, B: 2}] and [other = {B: 3, C: 4}],
    both enumerated in the order of insertion: the file holds the three
    lines [-C=4], [ B=3->2], [+A=1]. *)
Lemma save_diff_groups_witness :
  let self := mkDefconfig (Some "diff") {[ "A" := "1"; "B" := "2" ]} in
  let other := mkDefconfig None {[ "B" := "3"; "C" := "4" ]} in
  let sits := [("A", "1"); ("B", "2")] in
  let tits := [("B", "3"); ("C", "4")] in
  sits ≡ₚ items (opts self) ∧ tits ≡ₚ items (opts other) ∧
  diff_out_of (opts self) (opts other) sits tits = ["-C=4"; " B=3->2"; "+A=1"] ∧
  save_diff ∅ self other None =
    (Returns None,
     {[ "diff" := File ("-C=4" +:+ nl +:+ " B=3->2" +:+ nl +:+ "+A=1" +:+ nl) ]}).
Proof.
  intros self other sits tits.
  assert (Hs : sits ≡ₚ items (opts self)).
  { apply (bool_decide_unpack _). by vm_compute. }
  assert (Ht : tits ≡ₚ items (opts other)).
  { apply (bool_decide_unpack _). by vm_compute. }
  split; [exact Hs|]. split; [exact Ht|]. split; [by vm_compute|].
  destruct (save_diff_groups ∅ self other None "diff" sits tits Hs Ht)
    as (minus & changes & plus & Hout & -> & _).
  - reflexivity.
  - by vm_compute.
  - rewrite <-Hout. by vm_compute.
Defined.

(** ** [load] merges *)

Section merge.
Implicit Types (o : gmap string string) (line k v : string).

Lemma load_line_union o line : load_line o line = load_line ∅ line ∪ o.
Proof.
  unfold load_line. destruct (is_not_set_match line) as [symbol|].
  - by rewrite insert_empty, insert_union_singleton_l.
  - destruct (is_config_match line) as [[symbol value]|].
    + by rewrite insert_empty, insert_union_singleton_l.
    + by rewrite (left_id_L ∅ (∪)).
Qed.

Lemma load_lines_union o lines : load_lines o lines = load_lines ∅ lines ∪ o.
Proof.
  unfold load_lines. revert o.
  induction lines as [|l ls IH]; intros o; simpl.
  - by rewrite (left_id_L ∅ (∪)).
  - rewrite (IH (load_line o l)), (IH (load_line ∅ l)), (load_line_union o l).
    by rewrite (assoc_L (∪)).
Qed.

Lemma load_lines_untouched lines k :
  Forall (λ l, load_line ∅ l !! k = None) lines →
  load_lines ∅ lines !! k = None.
Proof.
  induction 1 as [|l ls Hl _ IH]; [done|].
  change (load_lines ∅ (l :: ls)) with (load_lines (load_line ∅ l) ls).
  rewrite load_lines_union. apply lookup_union_None. done.
Qed.
End merge.

(** X1: [load] merges the file into the mapping the instance already
    holds: the result is what a new [Defconfig] would load from the
    file, completed by the entries held before (the file overrides them
    symbol by symbol, and no symbol is ever removed). *)
Theorem load_merges fs self p' content :
  fs !! p' = Some (File content) →
  opts (load fs self (Some p')).2 =
    opts (load fs (init None) (Some p')).2 ∪ opts self ∧
  (∀ k, is_Some (opts self !! k) → is_Some (opts (load fs self (Some p')).2 !! k)).
Proof.
  intros Hf. unfold load, resolve, init. rewrite Hf. cbn [opts snd].
  rewrite load_lines_union. split; [done|].
  intros k [v Hk]. rewrite lookup_union. rewrite Hk.
  destruct (load_lines ∅ (file_lines content) !! k); eauto.
Qed.

(** [load_merges] on an instance holding [DEBUG] and [SMP] and a file
    that sets [DEBUG] and [ARCH]. *)
Lemma load_merges_witness :
  opts (load {[ "defconfig" := File ("CONFIG_DEBUG=n" +:+ nl +:+ "CONFIG_ARCH=arm" +:+ nl) ]}
             (mkDefconfig None {[ "DEBUG" := "y"; "SMP" := "y" ]})
             (Some "defconfig")).2 =
    {[ "DEBUG" := "n"; "ARCH" := "arm"; "SMP" := "y" ]}.
Proof.
  refine (eq_trans (proj1 (load_merges _ _ "defconfig" _ _)) _);
    [reflexivity|by vm_compute].
Defined.

(** X2: loading the same file a second time changes nothing: the
    mapping after two calls of [load] is the mapping after one. *)
Theorem load_twice fs self p :
  load fs (load fs self p).2 p = load fs self p.
Proof.
  unfold load. destruct (resolve self p) as [p'|] eqn:Hp; simpl; [|by rewrite Hp].
  destruct (fs !! p') as [[content|readable|]|] eqn:Hf; simpl.
  - assert (resolve (mkDefconfig (path self)
              (load_lines (opts self) (file_lines content))) p = Some p') as ->.
    { by destruct p. }
    rewrite Hf. cbn [opts path]. f_equal. f_equal.
    rewrite (load_lines_union (load_lines _ _)), (load_lines_union (opts self)).
    by rewrite (assoc_L (∪)), (idemp_L (∪)).
  - assert (resolve (mkDefconfig (path self)
              (load_lines (opts self) (file_lines readable))) p = Some p') as ->.
    { by destruct p. }
    rewrite Hf. cbn [opts path]. f_equal. f_equal.
    rewrite (load_lines_union (load_lines _ _)), (load_lines_union (opts self)).
    by rewrite (assoc_L (∪)), (idemp_L (∪)).
  - by rewrite Hp, Hf.
  - by rewrite Hp, Hf.
Qed.

(** X3: the last line wins.  When a line of the file stores the value
    [v] for the symbol [k] and no later line stores anything for [k],
    the mapping after [load] holds [v] for [k], whatever the earlier
    lines and the previous mapping say. *)
Theorem load_last_line_wins o pre line post k v :
  load_line ∅ line !! k = Some v →
  Forall (λ l, load_line ∅ l !! k = None) post →
  load_lines o (pre ++ line :: post) !! k = Some v.
Proof.
  intros Hl Hpost. unfold load_lines. rewrite foldl_app. simpl.
  fold (load_lines (load_line (foldl load_line o pre) line) post).
  rewrite load_lines_union, load_line_union.
  rewrite lookup_union_r by by apply load_lines_untouched.
  by apply lookup_union_Some_l.
Qed.

(** [load_last_line_wins] on a file that sets [DEBUG] twice. *)
Lemma load_last_line_wins_witness :
  load_lines {[ "DEBUG" := "old" ]}
             (["CONFIG_DEBUG=y" +:+ nl] ++
              ("# CONFIG_DEBUG is not set" +:+ nl) :: ["CONFIG_SMP=y" +:+ nl])
    !! "DEBUG" = Some "n".
Proof.
  apply load_last_line_wins; [reflexivity|].
  apply (bool_decide_unpack _). by vm_compute.
Defined.

(** X4: the lines [load] skips.  A line stores nothing if and only if the
    text before its line feed holds no ['='] and the line is not ['# ']
    followed, on the same line, by [' is not set']. *)
Theorem load_line_skipped line :
  load_line ∅ line = ∅ ↔
  occurs EQUALS (dot_star line) = false ∧
  ¬ ∃ s rest, line = "# " +:+ s +:+ " is not set" +:+ rest ∧ occurs LF s = false.
Proof.
  assert (Hn : is_not_set_match line = None ↔
    ¬ ∃ s rest, line = "# " +:+ s +:+ " is not set" +:+ rest ∧ occurs LF s = false).
  { unfold is_not_set_match. split.
    - intros Hm (s & rest & -> & HLF). rewrite strip_prefix_app in Hm.
      destruct (dot_star_then " is not set" (s +:+ " is not set" +:+ rest))
        as [[g r]|] eqn:Hd; [done|].
      rewrite dot_star_then_None in Hd. specialize (Hd s rest eq_refl). congruence.
    - intros Hno. destruct (strip_prefix "# " line) as [body|] eqn:Hp; [|done].
      apply strip_prefix_Some in Hp as ->.
      destruct (dot_star_then " is not set" body) as [[g r]|] eqn:Hd; [|done].
      apply dot_star_then_spec in Hd as (-> & HLF & _). destruct Hno. eauto. }
  rewrite <-Hn, <-is_config_match_None. unfold load_line. split.
  - destruct (is_not_set_match line) as [symbol|].
    { intros H. by apply insert_non_empty in H. }
    destruct (is_config_match line) as [[symbol value]|]; [|done].
    intros H. by apply insert_non_empty in H.
  - by intros [-> ->].
Qed.

(** X5: [load] keeps the mapping representable.  If no symbol or value
    held before has a line break and no value has an ['='], the same is
    true after [load], whatever the file holds; the mapping of a new
    [Defconfig] after its first [load] is of that kind. *)
Theorem load_keeps_line_safe fs self p :
  line_safe (opts self) →
  line_safe (opts (load fs self p).2).
Proof. apply load_safe. Qed.

(** [load_keeps_line_safe] on a new [Defconfig] and a file with a
    carriage return and several ['=']. *)
Lemma load_keeps_line_safe_witness :
  line_safe (opts (load {[ "defconfig" :=
                             File ("CONFIG_A=b=c" +:+ String CR "CONFIG_D=e") ]}
                        (init None) (Some "defconfig")).2).
Proof. apply load_keeps_line_safe. apply map_Forall_empty. Defined.

(** ** More on [save_diff] *)

Section diff_more.
Implicit Types (a b o : gmap string string).

Lemma sorted_nil_inv (l : list string) : sorted l = [] → l = [].
Proof. intros H. apply Permutation_nil_r. by rewrite <-H, sorted_perm. Qed.

Lemma filter_nil_Forall {A} (P : A → Prop) `{∀ x, Decision (P x)} (l : list A) :
  filter P l = [] → Forall (λ x, ¬ P x) l.
Proof.
  induction l as [|x l IH]; [constructor|]. rewrite filter_cons.
  destruct (decide (P x)); [done|]. intros Hl. constructor; auto.
Qed.

Lemma omap_nil_Forall {A B} (h : A → option B) (l : list A) :
  omap h l = [] → Forall (λ x, h x = None) l.
Proof.
  induction l as [|x l IH]; [constructor|]. simpl.
  destruct (h x) eqn:Hx; [done|]. intros Hl. constructor; auto.
Qed.

Lemma filter_all {A} (P : A → Prop) `{∀ x, Decision (P x)} (l : list A) :
  Forall P l → filter P l = l.
Proof.
  induction 1 as [|x l Hx _ IH]; [done|]. by rewrite filter_cons_True, IH.
Qed.

Lemma diff_out_nil_inv a b : diff_out a b = [] → a = b.
Proof.
  unfold diff_out. rewrite diff_out_of_eq.
  intros [Hm [Hc Hp]%app_eq_nil]%app_eq_nil.
  apply sorted_nil_inv in Hm, Hc, Hp.
  rewrite diff_minus_eq in Hm. rewrite diff_plus_changes_eq in Hc, Hp.
  cbn [fst snd] in Hc, Hp.
  apply fmap_nil_inv, filter_nil_Forall in Hm, Hp.
  apply omap_nil_Forall in Hc.
  rewrite Forall_forall in Hm, Hc, Hp.
  assert (Hab : ∀ k v, a !! k = Some v → b !! k = Some v).
  { intros k v Hk. apply elem_of_map_to_list in Hk.
    specialize (Hc _ Hk). specialize (Hp _ Hk). simpl in Hc, Hp.
    destruct (b !! k) as [tv|]; [|done].
    destruct (decide (tv ≠ v)) as [|Heq]; [done|].
    apply dec_stable in Heq. by subst. }
  apply map_eq. intros k. destruct (a !! k) as [v|] eqn:Hk.
  - symmetry. by apply Hab.
  - destruct (b !! k) as [v|] eqn:Hbk; [|done].
    apply elem_of_map_to_list in Hbk. specialize (Hm _ Hbk). simpl in Hm.
    done.
Qed.

Lemma diff_out_empty_target o :
  diff_out o ∅ = sorted ((λ it, "+" +:+ it.1 +:+ "=" +:+ it.2) <$> items o).
Proof.
  unfold diff_out. rewrite diff_out_of_eq, diff_minus_eq, diff_plus_changes_eq.
  cbn [fst snd]. unfold items. rewrite map_to_list_empty, filter_nil, fmap_nil.
  rewrite (filter_all (λ it : string * string, (∅ : gmap string string) !! it.1 = None));
    [|apply Forall_forall; by intros it _].
  rewrite omap_none; [done|]. apply Forall_forall. by intros it _.
Qed.

Lemma diff_out_empty_self o :
  diff_out ∅ o = sorted ((λ it, "-" +:+ it.1 +:+ "=" +:+ it.2) <$> items o).
Proof.
  unfold diff_out. rewrite diff_out_of_eq, diff_minus_eq, diff_plus_changes_eq.
  cbn [fst snd]. unfold items. rewrite map_to_list_empty, filter_nil, fmap_nil.
  rewrite (filter_all (λ it : string * string, (∅ : gmap string string) !! it.1 = None));
    [|apply Forall_forall; by intros it _].
  change (sorted (omap _ [])) with (@nil string).
  change (sorted []) with (@nil string). by rewrite !app_nil_r.
Qed.
End diff_more.

(** X6: [save_diff] writes no line only for identical mappings: when the
    output is empty, [self] and [other] hold the same symbols with the
    same values. *)
Theorem save_diff_empty_only_if_identical self target :
  diff_out (opts self) (opts target) = [] ↔ opts self = opts target.
Proof.
  split; [apply diff_out_nil_inv|]. intros ->. apply diff_out_same.
Qed.

(** X7: a diff against nothing.  When the base defconfig does not exist,
    its [load] returns [-1] and leaves the base as it was created, with
    an empty mapping; the main program goes on without looking at the
    result, and [save_diff] then writes every option of [self] as a line
    [+SYMBOL=VALUE], sorted, each followed by a line feed.  With the
    roles exchanged every option is reported as removed. *)
Theorem save_diff_missing_base fs fs' self base p p' :
  fs !! base = None →
  resolve self p = Some p' →
  fs' !! p' ≠ Some Dir →
  load fs (init (Some base)) None = (Returns (Some (-1)%Z), init (Some base)) ∧
  opts (load fs (init (Some base)) None).2 = ∅ ∧
  save_diff fs' self (load fs (init (Some base)) None).2 p =
    (Returns None,
     <[p' := File (each_on_a_line
                     (sorted ((λ it, "+" +:+ it.1 +:+ "=" +:+ it.2) <$>
                                items (opts self))))]> fs') ∧
  diff_out (opts (load fs (init (Some base)) None).2) (opts self) =
    sorted ((λ it, "-" +:+ it.1 +:+ "=" +:+ it.2) <$> items (opts self)).
Proof.
  intros Hb Hp Hdir.
  assert (Hload : load fs (init (Some base)) None =
                    (Returns (Some (-1)%Z), init (Some base))).
  { unfold load, resolve, init. cbn [path]. by rewrite Hb. }
  rewrite Hload. cbn [snd]. split; [done|]. split; [done|].
  split; [|apply diff_out_empty_self].
  unfold save_diff, write_file, diff_text, print_to, init. cbn [opts].
  rewrite Hp, diff_out_empty_target, str_app_nil_l, join_nl_lines.
  by destruct (fs' !! p') as [[| |]|].
Qed.

(** [save_diff_missing_base] for a configuration with two options. *)
Lemma save_diff_missing_base_witness :
  load ∅ (init (Some "configs/default/defconfig")) None =
    (Returns (Some (-1)%Z), init (Some "configs/default/defconfig")) ∧
  save_diff ∅ (mkDefconfig (Some "new/defconfig") {[ "SMP" := "n"; "DEBUG" := "y" ]})
            (load ∅ (init (Some "configs/default/defconfig")) None).2 None =
    (Returns None,
     {[ "new/defconfig" := File ("+DEBUG=y" +:+ nl +:+ "+SMP=n" +:+ nl) ]}).
Proof.
  destruct (save_diff_missing_base ∅ ∅
              (mkDefconfig (Some "new/defconfig") {[ "SMP" := "n"; "DEBUG" := "y" ]})
              "configs/default/defconfig" None "new/defconfig")
    as (Hl & _ & Hs & _).
  - reflexivity.
  - reflexivity.
  - by vm_compute.
  - split; [exact Hl|]. rewrite Hs. by vm_compute.
Defined.

(** X8: exchanging the roles exchanges the signs.  The [-] lines of
    [self.save_diff(other)] and the [+] lines of [other.save_diff(self)]
    are about the same items, those of [other] whose symbol is not in
    [self], and differ in the sign only. *)
Theorem save_diff_roles_exchanged self other :
  ∃ its,
    its ≡ₚ map_to_list (filter (λ e, opts self !! e.1 = None) (opts other)) ∧
    diff_minus (opts self) (items (opts other)) =
      (λ it, "-" +:+ it.1 +:+ "=" +:+ it.2) <$> its ∧
    (diff_plus_changes (opts self) (items (opts other))).1 =
      (λ it, "+" +:+ it.1 +:+ "=" +:+ it.2) <$> its.
Proof.
  exists (filter (λ it, opts self !! it.1 = None) (items (opts other))).
  split; [by rewrite map_to_list_filter_perm|].
  by rewrite diff_minus_eq, diff_plus_changes_eq.
Qed.

(** ** [__repr__] *)

Section repr.
Implicit Types (its : list (string * string)) (x y z : string * string).

Lemma item_le_trans x y z : item_le x y → item_le y z → item_le x z.
Proof.
  unfold item_le. destruct x as [x1 x2], y as [y1 y2], z as [z1 z2]. simpl.
  intros H1 H2. repeat case_decide; simplify_eq; try done; try by etrans.
  exfalso. by apply H0, (anti_symm String.le).
Qed.

Lemma item_le_antisym x y : item_le x y → item_le y x → x = y.
Proof.
  unfold item_le. destruct x as [x1 x2], y as [y1 y2]. simpl.
  intros H1 H2. repeat case_decide; simplify_eq.
  - f_equal. by apply (anti_symm String.le).
  - exfalso. by apply H, (anti_symm String.le).
Qed.

Lemma item_le_total x y : item_le x y ∨ item_le y x.
Proof.
  unfold item_le. destruct x as [x1 x2], y as [y1 y2]. simpl.
  repeat case_decide; simplify_eq; apply (total String.le).
Qed.

#[local] Instance item_le_Transitive : Transitive item_le := item_le_trans.
#[local] Instance item_le_AntiSymm : AntiSymm (=) item_le := item_le_antisym.
#[local] Instance item_le_Total : Total item_le := item_le_total.

Lemma sorted_items_Sorted its : Sorted item_le (sorted_items its).
Proof. apply (Sorted_merge_sort item_le). Qed.

Lemma sorted_items_StronglySorted its :
  StronglySorted item_le (sorted_items its).
Proof. apply (Sorted_StronglySorted item_le), sorted_items_Sorted. Qed.

(** The sorted items do not depend on the order of enumeration. *)
Lemma sorted_items_proper its its' :
  its ≡ₚ its' → sorted_items its = sorted_items its'.
Proof.
  intros Hp. apply (Sorted_unique item_le); try apply sorted_items_Sorted.
  by rewrite !sorted_items_perm.
Qed.

Lemma item_le_fst x y : item_le x y → String.le x.1 y.1.
Proof.
  unfold item_le. destruct (decide (x.1 = y.1)) as [->|]; [|done].
  intros _. reflexivity.
Qed.

Lemma repr_of_fmap its :
  repr_of its =
    join "," ((λ it, "(" +:+ it.1 +:+ " = " +:+ it.2 +:+ ")") <$> sorted_items its).
Proof.
  unfold repr_of. f_equal.
  transitivity (foldl (λ r it, r ++ ["(" +:+ it.1 +:+ " = " +:+ it.2 +:+ ")"]) []
                      (sorted_items its)).
  - apply foldl_ext. by intros acc [sym val].
  - by rewrite foldl_snoc_fmap.
Qed.
End repr.

(** X9: [__repr__] renders the entries as [(SYMBOL = VALUE)], joined by
    commas, in ascending order of the symbols, each symbol once, and the
    text is the same for every order [its] in which the dictionary
    enumerates its items. *)
Theorem repr_sorted_by_symbol self its :
  its ≡ₚ items (opts self) →
  repr_of its = repr self ∧
  ∃ l, l ≡ₚ map_to_list (opts self) ∧
       StronglySorted (λ x y, String.le x.1 y.1 ∧ x.1 ≠ y.1) l ∧
       repr self = join "," ((λ it, "(" +:+ it.1 +:+ " = " +:+ it.2 +:+ ")") <$> l).
Proof.
  intros Hits. split.
  - unfold repr. by rewrite !repr_of_fmap, (sorted_items_proper _ _ Hits).
  - exists (sorted_items (items (opts self))). split_and!.
    + apply sorted_items_perm.
    + assert (Hnd : NoDup (sorted_items (items (opts self))).*1).
      { rewrite sorted_items_perm. apply NoDup_fst_map_to_list. }
      pose proof (sorted_items_StronglySorted (items (opts self))) as Hs.
      induction Hs as [|x l Hs IH Hx]; [constructor|].
      rewrite fmap_cons in Hnd. apply NoDup_cons in Hnd as [Hx1 Hnd].
      constructor; [by apply IH|].
      rewrite Forall_forall in Hx. apply Forall_forall. intros y Hy.
      split; [by apply item_le_fst, Hx|].
      intros Heq. apply Hx1. rewrite Heq. by apply list_elem_of_fmap_2.
    + unfold repr. apply repr_of_fmap.
Qed.

(** [repr_sorted_by_symbol] on a dictionary filled in the order [Z],
    [B], [A]. *)
Lemma repr_sorted_by_symbol_witness :
  repr_of [("Z", "1"); ("B", "n"); ("A", "y")] = "(A = y),(B = n),(Z = 1)".
Proof.
  refine (eq_trans (proj1 (repr_sorted_by_symbol
            (mkDefconfig None {[ "Z" := "1"; "B" := "n"; "A" := "y" ]})
            [("Z", "1"); ("B", "n"); ("A", "y")] _)) _).
  - apply (bool_decide_unpack _). by vm_compute.
  - by vm_compute.
Defined.

(** ** The prompt *)

Section prompt.
Implicit Types (msg out : string) (events : list stdin_event).

Lemma join_empty_cons x (l : list string) : join "" (x :: l) = x +:+ join "" l.
Proof. destruct l; simpl; [by rewrite str_app_nil_r|done]. Qed.

Lemma join_empty_app (l1 l2 : list string) :
  join "" (l1 ++ l2) = join "" l1 +:+ join "" l2.
Proof.
  induction l1 as [|x l1 IH]; [done|].
  change ((x :: l1) ++ l2) with (x :: (l1 ++ l2)).
  by rewrite !join_empty_cons, IH, str_app_assoc.
Qed.

Lemma join_replicate_snoc n (p : string) :
  join "" (replicate (S n) p) = join "" (replicate n p) +:+ p.
Proof. by rewrite replicate_S_end, join_empty_app. Qed.

Lemma confirm_asks_again msg pre events out :
  Forall (λ e, ∃ res, e = Answer res ∧ res ≠ "y" ∧ res ≠ "n") pre →
  confirm msg (pre ++ events) out =
    confirm msg events
      (out +:+ join "" (replicate (length pre) (msg +:+ " (y/n)? "))).
Proof.
  intros Hpre. revert out.
  induction Hpre as [|e pre (res & -> & Hy & Hn) _ IH]; intros out.
  - by rewrite str_app_nil_r.
  - simpl app. cbn [confirm]. rewrite !decide_False by done. rewrite IH.
    cbn [length replicate]. by rewrite join_empty_cons, str_app_assoc.
Qed.
End prompt.

(** X10: [confirm] asks until it is answered.  Answers other than
    exactly [y] or [n] make it write the prompt again; the first [y] or
    [n] is returned as [True] or [False], an interrupt writes a line feed
    and leaves through [sys.exit(0)], and the end of the input raises
    [EOFError]; what follows the deciding event is not read.  The prompt
    has then been written once per event read. *)
Theorem confirm_first_decisive msg pre events out :
  Forall (λ e, ∃ res, e = Answer res ∧ res ≠ "y" ∧ res ≠ "n") pre →
  let asked := out +:+ join "" (replicate (S (length pre)) (msg +:+ " (y/n)? ")) in
  confirm msg (pre ++ Answer "y" :: events) out = (Answered true, asked) ∧
  confirm msg (pre ++ Answer "n" :: events) out = (Answered false, asked) ∧
  confirm msg (pre ++ Interrupt :: events) out = (SystemExit 0, asked +:+ nl) ∧
  confirm msg pre out = (EOFError, asked).
Proof.
  intros Hpre asked.
  assert (Hasked : asked =
    (out +:+ join "" (replicate (length pre) (msg +:+ " (y/n)? ")))
      +:+ (msg +:+ " (y/n)? ")).
  { unfold asked. by rewrite join_replicate_snoc, str_app_assoc. }
  rewrite <-(app_nil_r pre) at 4. rewrite !confirm_asks_again by done.
  rewrite Hasked. split_and!; reflexivity.
Qed.

(** [confirm_first_decisive] on the answers [yes], the empty line, [y]. *)
Lemma confirm_first_decisive_witness :
  confirm "spresense is already exists, overwrite? "
          ([Answer "yes"; Answer ""] ++ Answer "y" :: [Answer "n"]) "" =
    (Answered true,
     "spresense is already exists, overwrite?  (y/n)? " +:+
     "spresense is already exists, overwrite?  (y/n)? " +:+
     "spresense is already exists, overwrite?  (y/n)? ").
Proof.
  refine (eq_trans (proj1 (confirm_first_decisive _ [Answer "yes"; Answer ""]
                             [Answer "n"] "" _)) _).
  - repeat constructor; eexists; (split; [reflexivity|]); split; discriminate.
  - reflexivity.
Defined.

(** X11: [confirm] returns [True] only when the answer [y] was given, and
    [False] only when [n] was given: no other input makes it return. *)
Theorem confirm_returns_only_on_answer msg events out b :
  (confirm msg events out).1 = Answered b →
  Answer (if b then "y" else "n") ∈ events.
Proof.
  revert out. induction events as [|[res|] events IH]; intros out; cbn [confirm].
  - done.
  - destruct (decide (res = "y")) as [->|]; simpl.
    { intros [= <-]. left. }
    destruct (decide (res = "n")) as [->|]; simpl.
    { intros [= <-]. left. }
    intros H. right. by eapply IH.
  - done.
Qed.

(** [confirm_returns_only_on_answer] on the answers [maybe], [n]. *)
Lemma confirm_returns_only_on_answer_witness :
  Answer "n" ∈ [Answer "maybe"; Answer "n"].
Proof.
  apply (confirm_returns_only_on_answer "overwrite? "
           [Answer "maybe"; Answer "n"] "" false). reflexivity.
Defined.

(** ** The shape of a saved file *)

(** X12: the file [save] writes for a mapping without line breaks reads
    as the seven lines of the header followed by one line per symbol,
    the entries in sorted order; for the empty mapping it reads as the
    header followed by one empty line. *)
Theorem save_file_lines o :
  line_safe o →
  ∃ entries,
    Sorted String.le entries ∧
    entries ≡ₚ (λ it, config_entry it.1 it.2) <$> map_to_list o ∧
    file_lines (save_text o) =
      [ "#" +:+ nl;
        "# This file is autogenerated: PLEASE DO NOT EDIT IT." +:+ nl;
        "#" +:+ nl;
        "# You can use " +:+ dquote +:+ "make menuconfig" +:+ dquote +:+
          " to make any modifications to the installed .config file." +:+ nl;
        "# You can then do " +:+ dquote +:+ "make savedefconfig" +:+ dquote +:+
          " to generate a new defconfig file that includes your" +:+ nl;
        "# modifications." +:+ nl;
        "#" +:+ nl ] ++
      match entries with
      | [] => [nl]
      | _ :: _ => (λ l, l +:+ nl) <$> entries
      end ∧
    length (file_lines (save_text o)) = 7 + max 1 (size o).
Proof.
  intros Ho. pose proof (line_safe_items o Ho) as Hits.
  exists (sorted (config_lines (items o))).
  assert (Hperm : sorted (config_lines (items o)) ≡ₚ
                    (λ it, config_entry it.1 it.2) <$> map_to_list o).
  { by rewrite sorted_perm, config_lines_perm_items. }
  assert (Hlines : file_lines (save_text o) =
    iter_lines (DEFCONFIG_HEADER +:+ nl) ++
    match sorted (config_lines (items o)) with
    | [] => [nl]
    | _ :: _ => (λ l, l +:+ nl) <$> sorted (config_lines (items o))
    end).
  { unfold save_text. rewrite file_lines_save_text_of;
      [|eapply Forall_impl; [exact Hits|]; by intros it (? & ? & ?)].
    by destruct (sorted (config_lines (items o))). }
  split; [apply sorted_Sorted|]. split; [exact Hperm|].
  split; [by rewrite Hlines, header_lines|].
  rewrite Hlines, length_app, header_lines.
  assert (length (sorted (config_lines (items o))) = size o) as Hlen.
  { by rewrite Hperm, length_fmap, length_map_to_list. }
  destruct (sorted (config_lines (items o))) as [|l ls]; simpl in Hlen.
  - rewrite <-Hlen. reflexivity.
  - rewrite length_fmap. simpl. rewrite Hlen. simpl. lia.
Qed.

(** [save_file_lines] on a mapping with two symbols. *)
Lemma save_file_lines_witness :
  let o : gmap string string := {[ "DEBUG" := "y"; "SMP" := "n" ]} in
  line_safe o ∧
  ∃ entries,
    Sorted String.le entries ∧
    entries ≡ₚ ["CONFIG_DEBUG=y"; "# CONFIG_SMP is not set"] ∧
    drop 7 (file_lines (save_text o)) = (λ l, l +:+ nl) <$> entries ∧
    length (file_lines (save_text o)) = 9.
Proof.
  intros o.
  assert (Ho : line_safe o).
  { apply (bool_decide_unpack _). by vm_compute. }
  split; [exact Ho|].
  destruct (save_file_lines o Ho) as (entries & Hs & Hp & Hl & Hlen).
  exists entries. split; [exact Hs|].
  assert (Hp' : entries ≡ₚ ["CONFIG_DEBUG=y"; "# CONFIG_SMP is not set"]).
  { rewrite Hp. apply (bool_decide_unpack _). by vm_compute. }
  split; [exact Hp'|]. split; [|exact Hlen].
  rewrite Hl. destruct entries as [|e es]; [|reflexivity].
  by apply Permutation_nil_l in Hp'.
Defined.

(** X13: the file determines the mapping.  Two mappings without line
    breaks and without ['='] in a value for which [save] writes the same
    text hold the same symbols with the same values. *)
Theorem save_text_injective o1 o2 :
  line_safe o1 → line_safe o2 →
  save_text o1 = save_text o2 → o1 = o2.
Proof.
  intros H1 H2 Heq.
  rewrite <-(load_lines_save_text o1 H1), <-(load_lines_save_text o2 H2).
  by rewrite Heq.
Qed.

(** [save_text_injective] on one mapping built in two ways. *)
Lemma save_text_injective_witness :
  (<[ "SMP" := "n" ]> {[ "DEBUG" := "y" ]} : gmap string string) =
  <[ "DEBUG" := "y" ]> {[ "SMP" := "n" ]}.
Proof.
  apply save_text_injective.
  - apply (bool_decide_unpack _). by vm_compute.
  - apply (bool_decide_unpack _). by vm_compute.
  - by vm_compute.
Defined.
